(** * Discovery of service definitions by walking a directory tree

    A shallow embedding of package [generators]: the directory tree with
    inherited ignore rules ([NewDirectory], [Ignores]), the walk that offers
    every directory to an ordered list of generators ([directory.Generate]),
    the run ([GeneratorCollection.Generate]) and the aggregation of what the
    generators found ([Services], [Groups], [Imports]). *)

From stdpp Require Import base option list sorting gmap strings.
From Stdlib Require OrderedTypeEx.

Set Default Proof Using "Type".
#[local] Set Warnings "-register-all".
Local Open Scope string_scope.
Local Open Scope list_scope.

(* ===================================================================== *)
(** ** Errors *)

(** A Go [error] value.  [SkipDir] is the variable [filepath.SkipDir], which
    the walk compares by identity; [errors_New] stands for any other base
    error, labelled by its message; [WithStack] is the wrapper that
    [errors.WithStack] allocates around its argument.  A nil [error] is
    [None] in [option error]. *)
Inductive error : Type :=
  | SkipDir
  | errors_New (msg : string)
  | WithStack (cause : error).

#[global] Instance error_eq_dec : EqDecision error.
Proof. solve_decision. Defined.

(** [errors.WithStack(err)]: nil stays nil, anything else is wrapped. *)
Definition errors_WithStack (err : option error) : option error :=
  WithStack <$> err.

(** The error under all the [WithStack] wrappers ([errors.Cause]). *)
Fixpoint Cause (e : error) : error :=
  match e with
  | WithStack c => Cause c
  | _ => e
  end.

(** [wrapped n e]: [e] under [n] layers of [WithStack]. *)
Fixpoint wrapped (n : nat) (e : error) : error :=
  match n with
  | O => e
  | S k => WithStack (wrapped k e)
  end.

(* ===================================================================== *)
(** ** Records of package [services] *)

(** Only the [Name] field is read here; the rest of a record is opaque and
    is kept as one field so that two records of the same name stay apart. *)
Module services.
Record ServiceConfig : Type := { Name : string; Detail : nat }.
Record ServiceGroupConfig : Type := { GroupName : string; GroupDetail : nat }.
End services.

(* ===================================================================== *)
(** ** Ignore rulesets and the directory tree *)

(** A compiled [ignore.GitIgnore]: all the tree builder asks of it is
    [MatchesPath]. *)
Record GitIgnore : Type := { MatchesPath : string -> bool }.

(** The struct [directory].  A [*directory] is an [option directory], nil
    being [None].  [Parent] is read by [Ignores] only, through the fields
    [Parent] and [ignores], which are set when the node is allocated and
    never change: it holds the parent as it is at that moment, before any
    child is appended. *)
Inductive directory : Type :=
  Directory {
    Path : string;
    Parent : option directory;
    children : list (option directory);
    ignores : option GitIgnore
  }.

(** [func (d *directory) Ignores() *ignore.GitIgnore] *)
Fixpoint Ignores (d : directory) : option GitIgnore :=
  match ignores d with
  | Some r => Some r
  | None =>
      match Parent d with
      | Some p => Ignores p
      | None => None
      end
  end.

(** The chain of nodes from [d] up to the root, [d] first. *)
Fixpoint parent_chain (d : directory) : list directory :=
  d :: match Parent d with
       | Some p => parent_chain p
       | None => []
       end.

(* ===================================================================== *)
(** ** The file system as the tree builder sees it *)

(** What [loadIgnores] finds for the file [.edwardignore] of a directory. *)
Inductive IgnoreFile : Type :=
  | IgnoreNotExist
      (* os.Stat fails and os.IsNotExist holds *)
  | IgnoreStatFails (err : error)
      (* os.Stat fails otherwise *)
  | IgnoreCompiled (rules : option GitIgnore) (err : option error).
      (* os.Stat succeeds; the pair returned by ignore.CompileIgnoreFile *)

(** A directory on disk: its ignore file, whether [ioutil.ReadDir] fails on
    it, and its entries in listing order, each with its name and, when
    [IsDir()] holds, the directory it names. *)
Inductive FsDir : Type :=
  MkFsDir (ignoreFile : IgnoreFile) (readDirErr : option error)
          (entries : list (string * option FsDir)).

Definition fs_ignoreFile (fs : FsDir) : IgnoreFile :=
  let 'MkFsDir i _ _ := fs in i.
Definition fs_entries (fs : FsDir) : list (string * option FsDir) :=
  let 'MkFsDir _ _ es := fs in es.

(** What [os.Stat] answers for the root path. *)
Inductive RootStat : Type :=
  | StatFails (err : error)
  | StatNotDir
  | StatDir (fs : FsDir).

(** [loadIgnores(path, currentIgnores)], on the ignore file of [path]. *)
Definition loadIgnores (f : IgnoreFile) (currentIgnores : option GitIgnore)
  : option GitIgnore * option error :=
  match f with
  | IgnoreNotExist => (currentIgnores, None)
  | IgnoreStatFails err => (currentIgnores, errors_WithStack (Some err))
  | IgnoreCompiled rules err => (rules, errors_WithStack err)
  end.

(** [parent != nil && parent.Ignores() != nil &&
     parent.Ignores().MatchesPath(path)] *)
Definition ignored_by (parent : option directory) (path : string) : bool :=
  match parent with
  | Some p =>
      match Ignores p with
      | Some r => MatchesPath r path
      | None => false
      end
  | None => false
  end.

(** The loop [for _, file := range files] of [NewDirectory]: entries that are
    not directories are passed over, every subdirectory is built by [build]
    and appended to the children, and the first error ends the loop. *)
Definition range_files
    (build : string -> FsDir -> option directory * option error)
    (node : list (option directory) -> directory)
  : list (string * option FsDir) -> list (option directory) ->
    option directory * option error :=
  fix range files cs :=
    match files with
    | [] => (Some (node cs), None)
    | (_, None) :: rest => range rest cs
    | (name, Some sub) :: rest =>
        match build name sub with
        | (_, Some err) => (None, errors_WithStack (Some err))
        | (child, None) => range rest (cs ++ [child])
        end
    end.

Section Builder.

(** [filepath.Join] of a directory path and an entry name. *)
Variable Join : string -> string -> string.

(** [func NewDirectory(path string, parent *directory)], returning a
    [*directory] and an [error], reading the directory [fs] that [path]
    names. *)
Fixpoint NewDirectory (fs : FsDir) (path : string) (parent : option directory)
  {struct fs} : option directory * option error :=
  if ignored_by parent path then (None, None)
  else
    match fs with
    | MkFsDir ignoreFile readDirErr files =>
        match loadIgnores ignoreFile None with
        | (_, Some err) => (None, errors_WithStack (Some err))
        | (ignores, None) =>
            match readDirErr with
            | Some err => (None, errors_WithStack (Some err))
            | None =>
                let d := Directory path parent [] ignores in
                range_files
                  (fun name sub => NewDirectory sub (Join path name) (Some d))
                  (fun cs => Directory path parent cs ignores)
                  files []
            end
        end
    end.

End Builder.

(* ===================================================================== *)
(** ** Generators *)

(** The struct [generatorBase] and its three methods. *)
Record generatorBase : Type := { err : option error; basePath : string }.

Definition generatorBase_Err (e : generatorBase) : option error := err e.

Definition generatorBase_SetErr (e : generatorBase) (err : option error)
  : generatorBase :=
  {| err := err; basePath := basePath e |}.

Definition generatorBase_StartWalk (b : generatorBase) (basePath : string)
  : generatorBase :=
  {| err := None; basePath := basePath |}.

(** A value of the interface [Generator] points to an object; it is
    identified by the address of that object. *)
Definition Generator : Type := nat.

(** The method set of the object behind a [Generator].  The objects live in a
    store of type [World], which every method that may write receives and
    returns; [Name], [Err] and the three record getters read it.  A type
    assertion [generator.(ServiceGenerator)] succeeds when the object has a
    [Services] method, that is when [ServiceGenerator] is [Some]; likewise
    for [GroupGenerator] and [ImportGenerator]. *)
Record GeneratorImpl (World : Type) : Type := {
  Name : World -> string;
  StartWalk : string -> World -> World;
  StopWalk : World -> World;
  VisitDir : string -> World -> bool * option error * World;
  Err : World -> option error;
  SetErr : option error -> World -> World;
  ServiceGenerator : option (World -> list services.ServiceConfig);
  GroupGenerator : option (World -> list services.ServiceGroupConfig);
  ImportGenerator : option (World -> list string)
}.
Arguments Name {World}.
Arguments StartWalk {World}.
Arguments StopWalk {World}.
Arguments VisitDir {World}.
Arguments Err {World}.
Arguments SetErr {World}.
Arguments ServiceGenerator {World}.
Arguments GroupGenerator {World}.
Arguments ImportGenerator {World}.

(** The calls a run makes on the generators, with what [VisitDir] returned. *)
Inductive Call : Type :=
  | CallStartWalk (g : Generator) (basePath : string)
  | CallVisitDir (g : Generator) (path : string) (found : bool)
                 (err : option error)
  | CallStopWalk (g : Generator).

#[global] Instance Call_eq_dec : EqDecision Call.
Proof. solve_decision. Defined.

(** The struct [GeneratorCollection]; its field [Path] is [RootPath] here. *)
Record GeneratorCollection : Type := {
  Generators : list Generator;
  RootPath : string;
  Targets : list string
}.

(** [ByName.Less] and [ByGroupName.Less], on the elements compared. *)
Definition ByName_Less (a b : services.ServiceConfig) : bool :=
  String.ltb (services.Name a) (services.Name b).

Definition ByGroupName_Less (a b : services.ServiceGroupConfig) : bool :=
  String.ltb (services.GroupName a) (services.GroupName b).

(** What [sort.Sort] promises of a [Less] that is a strict weak order: the
    slice is rearranged, and afterwards no element is less than the one
    before it.  Nothing is promised about the order of equal elements. *)
Definition strict_weak {A} (less : A -> A -> bool) : Prop :=
  (forall a b, less a b = true -> less b a = false) /\
  (forall a b c, less b a = false -> less c b = false -> less c a = false).

Class Sorter : Type := {
  sort_Sort : forall {A : Type}, (A -> A -> bool) -> list A -> list A;
  sort_Sort_perm :
    forall A (less : A -> A -> bool) (l : list A), sort_Sort less l ≡ₚ l;
  sort_Sort_sorted :
    forall A (less : A -> A -> bool) (l : list A),
      strict_weak less ->
      Sorted (fun a b => less b a = false) (sort_Sort less l)
}.

Section Walk.

Context {World : Type}.

(** The method set of every generator object. *)
Variable methods : Generator -> GeneratorImpl World.

(** What a piece of the run yields: a result, the store, the calls made. *)
Definition Run (A : Type) : Type := A * World * list Call.

(** The loop [for _, generator := range generators] of
    [directory.Generate], started with [childGenerators]: it ends with the
    error to return, or falls through (or breaks) with the generators kept
    for the children. *)
Fixpoint range_generators (path : string) (generators : list Generator)
    (childGenerators : list Generator) (w : World)
  : Run (error + list Generator) :=
  match generators with
  | [] => (inr childGenerators, w, [])
  | generator :: rest =>
      let '(found, err, w) := VisitDir (methods generator) path w in
      let call := CallVisitDir generator path found err in
      let continue (childGenerators : list Generator) :=
        if found then (inr childGenerators, w, [call])
        else
          let '(r, w, calls) :=
            range_generators path rest childGenerators w in
          (r, w, call :: calls) in
      match err with
      | Some e =>
          if decide (e = SkipDir) then continue childGenerators
          else (inl (WithStack e), w, [call])
      | None => continue (childGenerators ++ [generator])
      end
  end.

(** The loop [for _, child := range d.children] of [directory.Generate]. *)
Definition range_children
    (Generate : option directory -> list Generator -> World ->
                Run (option error))
    (childGenerators : list Generator)
  : list (option directory) -> World -> Run (option error) :=
  fix range cs w :=
    match cs with
    | [] => (None, w, [])
    | child :: rest =>
        match Generate child childGenerators w with
        | (Some err, w, calls) => (Some (WithStack err), w, calls)
        | (None, w, calls) =>
            let '(r, w, calls') := range rest w in
            (r, w, calls ++ calls')
        end
    end.

(** [directory.Generate] on a node that is not nil. *)
Fixpoint Generate_node (d : directory) (generators : list Generator)
    (w : World) {struct d} : Run (option error) :=
  if Nat.eqb (length generators) 0 then (None, w, [])
  else
    match range_generators (Path d) generators [] w with
    | (inl err, w, calls) => (Some err, w, calls)
    | (inr childGenerators, w, calls) =>
        let '(r, w, calls') :=
          range_children
            (fun child generators w =>
               match child with
               | None => (None, w, [])
               | Some c => Generate_node c generators w
               end)
            childGenerators (children d) w in
        (r, w, calls ++ calls')
    end.

(** [func (d *directory) Generate(generators []Generator) error] *)
Definition directory_Generate (d : option directory)
    (generators : list Generator) (w : World) : Run (option error) :=
  match d with
  | None => (None, w, [])
  | Some d => Generate_node d generators w
  end.

(** The loops of [GeneratorCollection.Generate] that start and stop every
    generator. *)
Fixpoint range_StartWalk (basePath : string) (generators : list Generator)
    (w : World) : World * list Call :=
  match generators with
  | [] => (w, [])
  | generator :: rest =>
      let w := StartWalk (methods generator) basePath w in
      let '(w, calls) := range_StartWalk basePath rest w in
      (w, CallStartWalk generator basePath :: calls)
  end.

Fixpoint range_StopWalk (generators : list Generator) (w : World)
  : World * list Call :=
  match generators with
  | [] => (w, [])
  | generator :: rest =>
      let w := StopWalk (methods generator) w in
      let '(w, calls) := range_StopWalk rest w in
      (w, CallStopWalk generator :: calls)
  end.

Variable Join : string -> string -> string.

(** [func (g *GeneratorCollection) Generate() error], where [os.Stat] of
    the root path answers [root].  The deferred function runs after the
    walk, whatever the walk returned. *)
Definition GeneratorCollection_Generate (g : GeneratorCollection)
    (root : RootStat) (w : World) : Run (option error) :=
  match root with
  | StatFails err => (Some (WithStack err), w, [])
  | StatNotDir =>
      (Some (errors_New (RootPath g ++ " is not a directory")%string), w, [])
  | StatDir fs =>
      match NewDirectory Join fs (RootPath g) None with
      | (_, Some err) => (Some (WithStack err), w, [])
      | (dir, None) =>
          let '(w, started) := range_StartWalk (RootPath g) (Generators g) w in
          let '(r, w, visited) := directory_Generate dir (Generators g) w in
          let '(w, stopped) := range_StopWalk (Generators g) w in
          (errors_WithStack r, w, started ++ visited ++ stopped)
      end
  end.

End Walk.

(* ===================================================================== *)
(** ** Aggregation *)

Section Aggregate.

Context {World : Type} {sorter : Sorter}.
Variable methods : Generator -> GeneratorImpl World.

(** [func (g *GeneratorCollection) Services() []*services.ServiceConfig] *)
Definition Services (g : GeneratorCollection) (w : World)
  : list services.ServiceConfig :=
  let '(outServices, serviceToGenerator) :=
    foldl
      (fun '(outServices, serviceToGenerator) generator =>
         match ServiceGenerator (methods generator) with
         | Some serviceGenerator =>
             if decide (Err (methods generator) w = None) then
               let found := serviceGenerator w in
               let serviceToGenerator : gmap string string :=
                 foldl
                   (fun m service =>
                      <[services.Name service := Name (methods generator) w]> m)
                   serviceToGenerator found in
               (outServices ++ found, serviceToGenerator)
             else (outServices, serviceToGenerator)
         | None => (outServices, serviceToGenerator)
         end)
      ([], ∅) (Generators g) in
  if Nat.eqb (length (Targets g)) 0 then sort_Sort ByName_Less outServices
  else
    let filterMap : gmap string unit :=
      foldl (fun m name => <[name := tt]> m) ∅ (Targets g) in
    let filteredServices :=
      foldl
        (fun filteredServices service =>
           match filterMap !! services.Name service with
           | Some _ => filteredServices ++ [service]
           | None => filteredServices
           end)
        [] outServices in
    sort_Sort ByName_Less filteredServices.

(** [func (g *GeneratorCollection) Groups() []*services.ServiceGroupConfig] *)
Definition Groups (g : GeneratorCollection) (w : World)
  : list services.ServiceGroupConfig :=
  let '(outGroups, groupToGenerator) :=
    foldl
      (fun '(outGroups, groupToGenerator) generator =>
         match GroupGenerator (methods generator) with
         | Some groupGenerator =>
             if decide (Err (methods generator) w = None) then
               let found := groupGenerator w in
               let groupToGenerator : gmap string string :=
                 foldl
                   (fun m group =>
                      <[services.GroupName group := Name (methods generator) w]> m)
                   groupToGenerator found in
               (outGroups ++ found, groupToGenerator)
             else (outGroups, groupToGenerator)
         | None => (outGroups, groupToGenerator)
         end)
      ([], ∅) (Generators g) in
  if Nat.eqb (length (Targets g)) 0 then sort_Sort ByGroupName_Less outGroups
  else
    let filterMap : gmap string unit :=
      foldl (fun m name => <[name := tt]> m) ∅ (Targets g) in
    let filteredGroups :=
      foldl
        (fun filteredGroups group =>
           match filterMap !! services.GroupName group with
           | Some _ => filteredGroups ++ [group]
           | None => filteredGroups
           end)
        [] outGroups in
    sort_Sort ByGroupName_Less filteredGroups.

(** [func (g *GeneratorCollection) Imports() []string] *)
Definition Imports (g : GeneratorCollection) (w : World) : list string :=
  foldl
    (fun outImports generator =>
       match ImportGenerator (methods generator) with
       | Some importGenerator =>
           if decide (Err (methods generator) w = None)
           then outImports ++ importGenerator w
           else outImports
       | None => outImports
       end)
    [] (Generators g).

(** What one generator contributes to an aggregate: the records of its
    capability [cap], when it has that capability and no recorded error. *)
Definition contribution {A : Type}
    (cap : GeneratorImpl World -> option (World -> list A))
    (w : World) (generator : Generator) : list A :=
  match cap (methods generator) with
  | Some records =>
      if decide (Err (methods generator) w = None) then records w else []
  | None => []
  end.

End Aggregate.

(* ===================================================================== *)
(** ** Reading the calls of a run *)

Definition result {World A : Type} (r : A * World * list Call) : A := r.1.1.
Definition store {World A : Type} (r : A * World * list Call) : World := r.1.2.
Definition calls {World A : Type} (r : A * World * list Call) : list Call := r.2.

Definition call_generator (c : Call) : Generator :=
  match c with
  | CallStartWalk g _ => g
  | CallVisitDir g _ _ _ => g
  | CallStopWalk g => g
  end.

(** [c] is a call of [VisitDir] ([is_visit]), on [path] by [g]
    ([visit_of]). *)
Definition is_visit (c : Call) : bool :=
  match c with
  | CallVisitDir _ _ _ _ => true
  | _ => false
  end.

Definition visit_of (path : string) (g : Generator) (c : Call) : Prop :=
  exists found err, c = CallVisitDir g path found err.

(** [VisitDir] returned [found = true]. *)
Definition claimed (c : Call) : bool :=
  match c with
  | CallVisitDir _ _ found _ => found
  | _ => false
  end.

(** [VisitDir] returned an error that is not [filepath.SkipDir]. *)
Definition failed (c : Call) : bool :=
  match c with
  | CallVisitDir _ _ _ (Some e) => bool_decide (e <> SkipDir)
  | _ => false
  end.


(** The generator of a call of [VisitDir] that did not return
    [filepath.SkipDir]. *)
Definition kept (c : Call) : option Generator :=
  match c with
  | CallVisitDir g _ _ err =>
      if decide (err = Some SkipDir) then None else Some g
  | _ => None
  end.

(** The store after the methods behind [cs] have run on it, in order. *)
Definition replay {World : Type} (methods : Generator -> GeneratorImpl World)
  : list Call -> World -> World :=
  fix replay cs w :=
    match cs with
    | [] => w
    | CallStartWalk g basePath :: rest =>
        replay rest (StartWalk (methods g) basePath w)
    | CallVisitDir g path _ _ :: rest =>
        replay rest (VisitDir (methods g) path w).2
    | CallStopWalk g :: rest => replay rest (StopWalk (methods g) w)
    end.

(* ===================================================================== *)
(** * Properties *)

(** How often [StopWalk] is called on [x] among the calls [cs]. *)
Definition stop_count (x : Generator) (cs : list Call) : nat :=
  length (filter (fun c => c = CallStopWalk x) cs).

(** What every walk satisfies: it calls nothing but [VisitDir], and only
    on generators of its list; it returns an error exactly when its last
    call failed, and then that error, wrapped; and the store it leaves is
    the one the called methods made. *)
Definition walk_ok {World : Type} (methods : Generator -> GeneratorImpl World)
    (generators : list Generator) (w : World)
    (run : option error * World * list Call) : Prop :=
  Forall (fun c => is_visit c = true /\ call_generator c ∈ generators)
         (calls run) /\
  match result run with
  | None => Forall (fun c => failed c = false) (calls run)
  | Some e' =>
      exists pre g p f e k,
        calls run = pre ++ [CallVisitDir g p f (Some e)] /\ e <> SkipDir /\
        e' = wrapped (S k) e /\ Forall (fun c => failed c = false) pre
  end /\
  store run = replay methods (calls run) w.

(** ** A sorter, and a small run, for the examples *)

(** Merge sort, by "not less", keeps the promise of [sort.Sort]. *)
Definition merge_Sort {A : Type} (less : A -> A -> bool) (l : list A) : list A :=
  @merge_sort A (fun a b => less b a = false)
    (fun a b => decide (less b a = false)) l.

Definition merge_sorter : Sorter.
Proof.
  refine {| sort_Sort := @merge_Sort |}.
  - intros A less l. apply merge_sort_Permutation.
  - intros A less l [Hasym _].
    assert (Htotal : Total (fun a b : A => less b a = false)).
    { intros a b. destruct (less b a) eqn:Hba; [right|left; reflexivity].
      apply Hasym. exact Hba. }
    apply Sorted_merge_sort. exact Htotal.
Defined.

Module Example.

(** The store: the [generatorBase] of the object at each address. *)
Definition World : Type := list generatorBase.

Definition base (x : Generator) (w : World) : generatorBase :=
  default {| err := None; basePath := "" |} (w !! x).

(** A generator built on [generatorBase] whose [VisitDir] answers by a
    fixed table, and which reports fixed services and imports. *)
Definition scripted (x : Generator) (name : string)
    (visit : string -> bool * option error)
    (found : list services.ServiceConfig) (imports : list string)
  : GeneratorImpl World :=
  {| Name := fun _ => name;
     StartWalk := fun basePath w =>
       alter (fun b => generatorBase_StartWalk b basePath) x w;
     StopWalk := fun w => w;
     VisitDir := fun path w => (visit path, w);
     Err := fun w => generatorBase_Err (base x w);
     SetErr := fun e w => alter (fun b => generatorBase_SetErr b e) x w;
     ServiceGenerator := Some (fun _ => found);
     GroupGenerator := None;
     ImportGenerator := Some (fun _ => imports) |}.

Definition svc (name : string) (n : nat) : services.ServiceConfig :=
  {| services.Name := name; services.Detail := n |}.

(** Generator 0 claims [R/X]; generator 1 skips what lies below [R/X];
    generator 2 fails at [R/Z]. *)
Definition methods (x : Generator) : GeneratorImpl World :=
  match x with
  | 0 => scripted 0 "claimer" (fun p => (String.eqb p "R/X", None))
           [svc "web" 1; svc "api" 2] ["R/X/edward.json"]
  | 1 => scripted 1 "skipper"
           (fun p => (false, if String.eqb p "R/X" then Some SkipDir else None))
           [svc "db" 3; svc "api" 4] ["R/other.json"]
  | _ => scripted 2 "failer"
           (fun p => (false, if String.eqb p "R/Z"
                             then Some (errors_New "unreadable") else None))
           [] []
  end.

Definition Join (dir name : string) : string := (dir ++ "/" ++ name)%string.

Definition w0 : World :=
  [ {| err := Some (errors_New "stale"); basePath := "" |};
    {| err := None; basePath := "" |};
    {| err := None; basePath := "" |} ].

(** The rules of [R/.edwardignore] match [R/B] and nothing else. *)
Definition rules : GitIgnore := {| MatchesPath := String.eqb "R/B" |}.

Definition empty_dir : FsDir := MkFsDir IgnoreNotExist None [].

(** [R] holds the directories [X] (which holds [Y]), [B] and [Z], and a
    file. *)
Definition fs : FsDir :=
  MkFsDir (IgnoreCompiled (Some rules) None) None
    [ ("X", Some (MkFsDir IgnoreNotExist None [("Y", Some empty_dir)]));
      ("B", Some (MkFsDir IgnoreNotExist None [("deep", Some empty_dir)]));
      ("notes.txt", None);
      ("Z", Some empty_dir) ].

Definition root : directory := Directory "R" None [] (Some rules).
Definition dirY : directory :=
  Directory "R/X/Y" (Some (Directory "R/X" (Some root) [] None)) [] None.
Definition dirX : directory := Directory "R/X" (Some root) [Some dirY] None.
Definition dirZ : directory := Directory "R/Z" (Some root) [] None.

Definition collection (generators : list Generator) (targets : list string)
  : GeneratorCollection :=
  {| Generators := generators; RootPath := "R"; Targets := targets |}.

End Example.

(** ** Reading the tree *)

(** The nodes of the tree under [d], [d] first, nil slots left out. *)
Fixpoint nodes (d : directory) : list directory :=
  d :: (fix below (cs : list (option directory)) : list directory :=
          match cs with
          | [] => []
          | None :: rest => below rest
          | Some c :: rest => nodes c ++ below rest
          end) (children d).

Definition nodes_of (d : option directory) : list directory :=
  match d with
  | Some d => nodes d
  | None => []
  end.


(** The subdirectories among the entries of a listing, in listing order. *)
Definition subdirs (files : list (string * option FsDir))
  : list (string * FsDir) :=
  omap (fun file => match file.2 with
                    | Some sub => Some (file.1, sub)
                    | None => None
                    end) files.

(** ** The slices [ByName] and [ByGroupName] as [sort.Interface] *)

(** [Len], [Swap] and [Less] take the slice and indices.  An index out of
    range panics: [None].  [Swap] reads both elements, then writes [s[i]],
    then [s[j]]. *)
Definition ByName_Len (s : list services.ServiceConfig) : nat := length s.

Definition ByName_Swap (s : list services.ServiceConfig) (i j : nat)
  : option (list services.ServiceConfig) :=
  match s !! j, s !! i with
  | Some sj, Some si => Some (<[j := si]> (<[i := sj]> s))
  | _, _ => None
  end.

Definition ByName_Less_at (s : list services.ServiceConfig) (i j : nat)
  : option bool :=
  match s !! i, s !! j with
  | Some si, Some sj => Some (String.ltb (services.Name si) (services.Name sj))
  | _, _ => None
  end.

Definition ByGroupName_Len (s : list services.ServiceGroupConfig) : nat :=
  length s.

Definition ByGroupName_Swap (s : list services.ServiceGroupConfig) (i j : nat)
  : option (list services.ServiceGroupConfig) :=
  match s !! j, s !! i with
  | Some sj, Some si => Some (<[j := si]> (<[i := sj]> s))
  | _, _ => None
  end.

Definition ByGroupName_Less_at (s : list services.ServiceGroupConfig)
    (i j : nat) : option bool :=
  match s !! i, s !! j with
  | Some si, Some sj =>
      Some (String.ltb (services.GroupName si) (services.GroupName sj))
  | _, _ => None
  end.

(** ** The errors a file system holds *)

(** The error of listing the directory, if any. *)
Definition fs_readDirErr_of (fs : FsDir) : option error :=
  let 'MkFsDir _ err _ := fs in err.

(** The error that loading an ignore file meets, if any. *)
Definition ignoreFile_errors (f : IgnoreFile) : list error :=
  match f with
  | IgnoreNotExist => []
  | IgnoreStatFails err => [err]
  | IgnoreCompiled _ err => option_list err
  end.

(** The errors that loading the ignore files and listing the directories of
    the tree under [fs] can meet. *)
Fixpoint fs_errors (fs : FsDir) : list error :=
  match fs with
  | MkFsDir ignoreFile readDirErr files =>
      ignoreFile_errors ignoreFile ++ option_list readDirErr ++
      (fix below (files : list (string * option FsDir)) : list error :=
         match files with
         | [] => []
         | (_, None) :: rest => below rest
         | (_, Some sub) :: rest => fs_errors sub ++ below rest
         end) files
  end.

(** The calls of a walk in which every generator of the list is called at
    every node, and answers [false] and no error: node after node, each
    node before the nodes below it. *)
Definition all_visits (generators : list Generator) (d : option directory)
  : list Call :=
  nodes_of d ≫= (fun n =>
    (fun x => CallVisitDir x (Path n) false None) <$> generators).

(** What [Services] and [Groups] hand to [sort.Sort]. *)
Definition selected {A : Type} (name : A -> string) (targets : list string)
    (records : list A) : list A :=
  if decide (targets = []) then records
  else filter (fun r => name r ∈ targets) records.

(** ** A generator that only embeds [generatorBase], for the examples *)

Module Plain.

(** The store is the [generatorBase] of the one object, at address 0. *)
Definition World : Type := generatorBase.

(** The generator at address 0 has the methods of [generatorBase], stops
    and visits without effect, finds nothing, and reports its base path as
    its import.  Any other address holds an object without state. *)
Definition methods (x : Generator) : GeneratorImpl World :=
  match x with
  | 0 =>
      {| Name := fun _ => "plain";
         StartWalk := fun basePath b => generatorBase_StartWalk b basePath;
         StopWalk := fun b => b;
         VisitDir := fun _ b => (false, None, b);
         Err := generatorBase_Err;
         SetErr := fun e b => generatorBase_SetErr b e;
         ServiceGenerator := None;
         GroupGenerator := None;
         ImportGenerator := Some (fun b => [basePath b]) |}
  | _ =>
      {| Name := fun _ => "inert";
         StartWalk := fun _ b => b;
         StopWalk := fun b => b;
         VisitDir := fun _ b => (false, None, b);
         Err := fun _ => None;
         SetErr := fun _ b => b;
         ServiceGenerator := None;
         GroupGenerator := None;
         ImportGenerator := None |}
  end.

Definition stale : World :=
  {| err := Some (errors_New "stale"); basePath := "" |}.

End Plain.

(** Projections of a run applied to a triple compute. *)
Ltac run_simpl :=
  repeat (progress (cbv beta iota zeta delta [result store calls fst snd] in *)).

(** ** Errors *)

(** Wrapping keeps the cause. *)
Lemma Cause_wrapped n e : Cause (wrapped n e) = Cause e.
Proof. induction n as [|n IH]; [reflexivity|exact IH]. Qed.

(** ** Induction over the directory tree *)

(** Induction along the parent chain. *)
Lemma directory_parent_ind (P : directory -> Prop) :
  (forall d, (forall p, Parent d = Some p -> P p) -> P d) ->
  forall d, P d.
Proof.
  intros step.
  fix IH 1. intros [path parent cs ign].
  apply step. simpl. destruct parent as [q|]; intros p Hp.
  - replace p with q by congruence. apply IH.
  - discriminate.
Qed.

(** Induction over the children. *)
Lemma directory_children_ind (P : directory -> Prop) :
  (forall d, Forall (fun c => forall c', c = Some c' -> P c') (children d) -> P d) ->
  forall d, P d.
Proof.
  intros step.
  fix IH 1. intros [path parent cs ign].
  apply step. simpl.
  induction cs as [|c cs IHcs]; constructor; [|exact IHcs].
  destruct c as [q|]; intros c' Hc.
  - replace c' with q by congruence. apply IH.
  - discriminate.
Qed.

(** ** The ignore resolver *)

Lemma Ignores_unfold d :
  Ignores d =
    match ignores d with
    | Some r => Some r
    | None => match Parent d with Some p => Ignores p | None => None end
    end.
Proof. destruct d; reflexivity. Qed.

Lemma parent_chain_unfold d :
  parent_chain d =
    d :: match Parent d with Some p => parent_chain p | None => [] end.
Proof. destruct d; reflexivity. Qed.

Lemma Ignores_head_chain d :
  Ignores d = head (omap ignores (parent_chain d)).
Proof.
  induction d as [d IH] using directory_parent_ind.
  rewrite Ignores_unfold, parent_chain_unfold. simpl.
  destruct (ignores d) as [r|]; [reflexivity|].
  destruct (Parent d) as [p|]; [|reflexivity].
  apply IH. reflexivity.
Qed.

(** C8.  [Ignores] returns the node's own ruleset when it has one;
    otherwise what [Ignores] returns for the parent, which is the own
    ruleset of the nearest ancestor that has one (the first ruleset met on
    the chain of parents); and it returns nil exactly when no node of the
    chain up to the root has a ruleset. *)
Theorem Ignores_nearest_ruleset (d : directory) :
  (forall r, ignores d = Some r -> Ignores d = Some r) /\
  (ignores d = None ->
     (forall p, Parent d = Some p -> Ignores d = Ignores p) /\
     (Parent d = None -> Ignores d = None)) /\
  (forall r, Ignores d = Some r <->
     exists k a, parent_chain d !! k = Some a /\ ignores a = Some r /\
       forall j b, j < k -> parent_chain d !! j = Some b -> ignores b = None) /\
  (Ignores d = None <-> Forall (fun a => ignores a = None) (parent_chain d)).
Proof.
  split; [|split; [|split]].
  - intros r Hr. rewrite Ignores_unfold, Hr. reflexivity.
  - intros Hn. split.
    + intros p Hp. rewrite (Ignores_unfold d), Hn, Hp. reflexivity.
    + intros Hp. rewrite Ignores_unfold, Hn, Hp. reflexivity.
  - intros r. rewrite Ignores_head_chain.
    generalize (parent_chain d). clear d. intros l.
    induction l as [|x l IH]; simpl.
    + split; [discriminate|]. intros (k & a & Hk & _). destruct k; discriminate.
    + destruct (ignores x) as [rx|] eqn:Hx; simpl.
      * split.
        -- intros [= <-]. exists 0, x. repeat split; auto. intros j b Hj. lia.
        -- intros (k & a & Hk & Ha & Hbefore). destruct k as [|k].
           ++ simpl in Hk. injection Hk as <-. congruence.
           ++ specialize (Hbefore 0 x ltac:(lia) eq_refl). congruence.
      * rewrite IH. split.
        -- intros (k & a & Hk & Ha & Hbefore). exists (S k), a.
           repeat split; auto. intros [|j] b Hj Hb.
           ++ simpl in Hb. injection Hb as <-. exact Hx.
           ++ apply (Hbefore j b); [lia|exact Hb].
        -- intros (k & a & Hk & Ha & Hbefore). destruct k as [|k].
           ++ simpl in Hk. injection Hk as <-. congruence.
           ++ exists k, a. repeat split; auto. intros j b Hj Hb.
              apply (Hbefore (S j) b); [lia|exact Hb].
  - rewrite Ignores_head_chain.
    generalize (parent_chain d). clear d. intros l.
    induction l as [|x l IH]; simpl.
    + split; auto.
    + destruct (ignores x) as [rx|] eqn:Hx; simpl.
      * split; [discriminate|]. intros H. inversion H; congruence.
      * rewrite IH. split.
        -- intros H. constructor; auto.
        -- intros H. inversion H; auto.
Qed.

(** ** The walk *)

Section WalkFacts.

Context {World : Type}.
Variable methods : Generator -> GeneratorImpl World.

Lemma directory_Generate_unfold (d : directory) generators (w : World) :
  directory_Generate methods (Some d) generators w =
    if Nat.eqb (length generators) 0 then (None, w, [])
    else
      match range_generators methods (Path d) generators [] w with
      | (inl err, w, calls) => (Some err, w, calls)
      | (inr childGenerators, w, calls) =>
          let '(r, w, calls') :=
            range_children (directory_Generate methods) childGenerators
              (children d) w in
          (r, w, calls ++ calls')
      end.
Proof. destruct d; reflexivity. Qed.

Lemma range_children_cons Generate childGenerators child rest (w : World) :
  range_children Generate childGenerators (child :: rest) w =
    match Generate child childGenerators w with
    | (Some err, w, calls) => (Some (WithStack err), w, calls)
    | (None, w, calls) =>
        let '(r, w, calls') :=
          range_children Generate childGenerators rest w in
        (r, w, calls ++ calls')
    end.
Proof. reflexivity. Qed.

Lemma range_children_no_generators cs (w : World) :
  range_children (directory_Generate methods) [] cs w = (None, w, []).
Proof.
  induction cs as [|c cs IH]; [reflexivity|].
  rewrite range_children_cons.
  destruct c as [d|]; [rewrite directory_Generate_unfold|]; simpl;
    rewrite IH; reflexivity.
Qed.

(** C10.  Walking a nil node, or any node with no generators, does
    nothing and succeeds: no call is made, the store is unchanged and the
    result is nil; so is the walk of every list of children once the list
    of generators handed down to them is empty. *)
Theorem Generate_nil_or_no_generators_is_noop :
  (forall generators (w : World),
     directory_Generate methods None generators w = (None, w, [])) /\
  (forall d (w : World),
     directory_Generate methods d [] w = (None, w, [])) /\
  (forall cs (w : World),
     range_children (directory_Generate methods) [] cs w = (None, w, [])).
Proof.
  split; [|split].
  - reflexivity.
  - intros [d|] w; [rewrite directory_Generate_unfold|]; reflexivity.
  - apply range_children_no_generators.
Qed.


(** *** The loop over the generators *)

Lemma failed_visit y p f e :
  e <> SkipDir -> failed (CallVisitDir y p f (Some e)) = true.
Proof. intros Hne. unfold failed. apply bool_decide_eq_true_2. exact Hne. Qed.

Lemma range_generators_cons path generator rest childGenerators (w : World) :
  range_generators methods path (generator :: rest) childGenerators w =
    let '(found, err, w) := VisitDir (methods generator) path w in
    let call := CallVisitDir generator path found err in
    let continue (childGenerators : list Generator) :=
      if found then (inr childGenerators, w, [call])
      else
        let '(r, w, calls) :=
          range_generators methods path rest childGenerators w in
        (r, w, call :: calls) in
    match err with
    | Some e =>
        if decide (e = SkipDir) then continue childGenerators
        else (inl (WithStack e), w, [call])
    | None => continue (childGenerators ++ [generator])
    end.
Proof. reflexivity. Qed.

(** One turn of the loop: the call made, and whether the loop goes on. *)
Lemma range_generators_step path g rest cg (w : World) :
  exists found err w1,
    VisitDir (methods g) path w = (found, err, w1) /\
    let c := CallVisitDir g path found err in
    if failed c then
      exists e, err = Some e /\ e <> SkipDir /\
        range_generators methods path (g :: rest) cg w =
          (inl (WithStack e), w1, [c])
    else if claimed c then
      range_generators methods path (g :: rest) cg w =
        (inr (cg ++ option_list (kept c)), w1, [c])
    else
      range_generators methods path (g :: rest) cg w =
        let '(r, w2, cs) :=
          range_generators methods path rest (cg ++ option_list (kept c)) w1 in
        (r, w2, c :: cs).
Proof.
  rewrite range_generators_cons.
  destruct (VisitDir (methods g) path w) as [[found err] w1].
  exists found, err, w1. split; [reflexivity|]. simpl.
  destruct err as [e|]; simpl.
  - destruct (decide (e = SkipDir)) as [->|Hne]; simpl.
    + rewrite app_nil_r. destruct found; reflexivity.
    + rewrite bool_decide_eq_true_2 by exact Hne.
      exists e. repeat split; auto.
  - destruct found; reflexivity.
Qed.

Lemma range_generators_spec path generators cg0 (w : World) r w' cs :
  range_generators methods path generators cg0 w = (r, w', cs) ->
  Forall2 (visit_of path) (take (length cs) generators) cs /\
  (forall i c, cs !! i = Some c -> claimed c || failed c = true ->
               length cs = S i) /\
  (length cs < length generators ->
     exists c, last cs = Some c /\ claimed c || failed c = true) /\
  match r with
  | inr cg =>
      cg = cg0 ++ omap kept cs /\ Forall (fun c => failed c = false) cs
  | inl e' =>
      exists pre g f e,
        cs = pre ++ [CallVisitDir g path f (Some e)] /\ e <> SkipDir /\
        e' = WithStack e /\ Forall (fun c => failed c = false) pre
  end /\
  w' = replay methods cs w.
Proof.
  revert cg0 w r w' cs.
  induction generators as [|g rest IH]; intros cg0 w r w' cs Hrun.
  { simpl in Hrun. injection Hrun as <- <- <-. simpl.
    repeat split; auto.
    - intros i c Hc. discriminate.
    - lia.
    - rewrite app_nil_r. reflexivity. }
  destruct (range_generators_step path g rest cg0 w)
    as (found & err & w1 & Hvisit & Hstep).
  cbv zeta in Hstep.
  set (c := CallVisitDir g path found err) in *.
  assert (Hreplay : forall tl, replay methods (c :: tl) w = replay methods tl w1).
  { intros tl. simpl. rewrite Hvisit. reflexivity. }
  assert (Hc : visit_of path g c) by (exists found, err; reflexivity).
  assert (Hfe : forall e, failed c = true -> err = Some e ->
                          c = CallVisitDir g path found (Some e)).
  { intros e _ ->. reflexivity. }
  clearbody c.
  destruct (failed c) eqn:Hfailed.
  { destruct Hstep as (e & Herr & Hne & Heq). rewrite Heq in Hrun.
    injection Hrun as <- <- <-.
    split; [|split; [|split; [|split]]].
    - repeat constructor. exact Hc.
    - intros [|i] c' Hc' _; [reflexivity|discriminate].
    - intros _. exists c. split; [reflexivity|].
      rewrite Hfailed. apply orb_true_r.
    - exists [], g, found, e. rewrite (Hfe e eq_refl Herr). repeat split; auto.
    - rewrite Hreplay. reflexivity. }
  destruct (claimed c) eqn:Hclaimed.
  { rewrite Hstep in Hrun. injection Hrun as <- <- <-.
    split; [|split; [|split; [|split]]].
    - repeat constructor. exact Hc.
    - intros [|i] c' Hc' _; [reflexivity|discriminate].
    - intros _. exists c. split; [reflexivity|].
      rewrite Hclaimed. reflexivity.
    - split; [|repeat constructor; exact Hfailed].
      simpl. destruct (kept c); reflexivity.
    - rewrite Hreplay. reflexivity. }
  rewrite Hstep in Hrun.
  destruct (range_generators methods path rest (cg0 ++ option_list (kept c)) w1)
    as [[r2 w2] cs2] eqn:Hrest.
  injection Hrun as <- <- <-.
  destruct (IH _ _ _ _ _ Hrest) as (Hvis & Hstop & Hearly & Hres & Hw).
  split; [|split; [|split; [|split]]].
  - simpl. constructor; [exact Hc|exact Hvis].
  - intros [|i] c' Hc' Hs.
    + simpl in Hc'. injection Hc' as <-.
      rewrite Hclaimed, Hfailed in Hs. discriminate.
    + simpl. f_equal. apply (Hstop i c'); assumption.
  - simpl. intros Hlt. destruct Hearly as (c' & Hlast & Hs); [lia|].
    exists c'. split; [|exact Hs].
    destruct cs2; [discriminate|exact Hlast].
  - destruct r2 as [e'|cg].
    + destruct Hres as (pre & g' & f & e & -> & Hne & -> & Hpre).
      exists (c :: pre), g', f, e. repeat split; auto.
    + destruct Hres as [-> Hnf]. split; [|constructor; assumption].
      rewrite <- app_assoc. f_equal. simpl.
      destruct (kept c); reflexivity.
  - rewrite Hreplay. exact Hw.
Qed.

(** *** The loop over the children, and the whole walk *)

Lemma replay_app cs1 cs2 (w : World) :
  replay methods (cs1 ++ cs2) w = replay methods cs2 (replay methods cs1 w).
Proof.
  revert w. induction cs1 as [|c cs1 IH]; intros w; [reflexivity|].
  destruct c; simpl; apply IH.
Qed.

Lemma range_children_app Generate generators xs ys (w : World) :
  range_children Generate generators (xs ++ ys) w =
    match range_children Generate generators xs w with
    | (Some err, w1, cs1) => (Some err, w1, cs1)
    | (None, w1, cs1) =>
        let '(r, w2, cs2) := range_children Generate generators ys w1 in
        (r, w2, cs1 ++ cs2)
    end.
Proof.
  revert w. induction xs as [|x xs IH]; intros w.
  - simpl. destruct (range_children Generate generators ys w) as [[r w2] cs2].
    reflexivity.
  - rewrite <- app_comm_cons, !range_children_cons.
    destruct (Generate x generators w) as [[[e|] w1] cs1]; [reflexivity|].
    rewrite IH.
    destruct (range_children Generate generators xs w1) as [[[e|] w2] cs2];
      [reflexivity|].
    destruct (range_children Generate generators ys w2) as [[r w3] cs3].
    rewrite app_assoc. reflexivity.
Qed.

Lemma range_children_ok Generate generators cs (w : World) :
  Forall (fun child =>
            forall w, walk_ok methods generators w (Generate child generators w))
         cs ->
  walk_ok methods generators w (range_children Generate generators cs w).
Proof.
  intros Hcs. revert w. induction Hcs as [|child cs Hchild _ IH]; intros w.
  { repeat split; constructor. }
  rewrite range_children_cons.
  destruct (Hchild w) as (Hin & Hres & Hw).
  destruct (Generate child generators w) as [[r1 w1] cs1].
  unfold walk_ok in *. run_simpl.
  destruct r1 as [e1|].
  - destruct Hres as (pre & g & p & f & e & k & -> & Hne & -> & Hpre).
    repeat split; auto. simpl.
    exists pre, g, p, f, e, (S k). repeat split; auto.
  - destruct (IH w1) as (Hin2 & Hres2 & Hw2).
    destruct (range_children Generate generators cs w1) as [[r2 w2] cs2].
    unfold walk_ok in *. run_simpl.
    split; [apply Forall_app; auto|]. split.
    + destruct r2 as [e2|].
      * destruct Hres2 as (pre & g & p & f & e & k & -> & Hne & -> & Hpre).
        exists (cs1 ++ pre), g, p, f, e, k. rewrite app_assoc.
        repeat split; auto. apply Forall_app; auto.
      * apply Forall_app; auto.
    + rewrite replay_app, <- Hw. exact Hw2.
Qed.

Lemma kept_calls_subseteq path generators cs :
  Forall2 (visit_of path) (take (length cs) generators) cs ->
  Forall (fun c => is_visit c = true /\ call_generator c ∈ generators) cs /\
  omap kept cs ⊆ generators.
Proof.
  intros H.
  assert (Hall : Forall (fun c => is_visit c = true /\
                           call_generator c ∈ take (length cs) generators) cs).
  { induction H as [|g c gs cs' (f & e & ->) _ IH]; constructor.
    - simpl. split; [reflexivity|]. apply list_elem_of_here.
    - eapply Forall_impl; [exact IH|]. simpl. intros c [? ?].
      split; [assumption|]. apply list_elem_of_further. assumption. }
  assert (Hsub : take (length cs) generators ⊆ generators).
  { apply subseteq_take. }
  split.
  - eapply Forall_impl; [exact Hall|]. simpl. intros c [? ?]. auto.
  - intros g Hg. apply list_elem_of_omap in Hg as (c & Hc & Hk).
    rewrite Forall_forall in Hall. destruct (Hall c Hc) as [_ Hin].
    destruct c as [| g' p f e |]; try discriminate. simpl in Hk.
    destruct (decide (e = Some SkipDir)); [discriminate|].
    injection Hk as ->. apply Hsub. exact Hin.
Qed.

Lemma directory_Generate_ok (d : option directory) generators (w : World) :
  walk_ok methods generators w (directory_Generate methods d generators w).
Proof.
  destruct d as [d|]; [|repeat split; constructor].
  revert generators w.
  induction d as [d IH] using directory_children_ind. intros generators w.
  rewrite directory_Generate_unfold.
  destruct (Nat.eqb (length generators) 0); [repeat split; constructor|].
  destruct (range_generators methods (Path d) generators [] w)
    as [[out w1] here] eqn:Hloop.
  destruct (range_generators_spec _ _ _ _ _ _ _ Hloop)
    as (Hvis & _ & _ & Hres & Hw).
  destruct (kept_calls_subseteq _ _ _ Hvis) as [Hin Hsub].
  destruct out as [e'|cg].
  { destruct Hres as (pre & g & f & e & -> & Hne & -> & Hpre).
    split; [exact Hin|]. split; [|exact Hw].
    exists pre, g, (Path d), f, e, 0. repeat split; auto. }
  destruct Hres as [-> Hnf]. simpl in Hsub |- *.
  pose proof (range_children_ok (directory_Generate methods)
                (omap kept here) (children d) w1) as Hch.
  destruct Hch as (Hin2 & Hres2 & Hw2).
  { eapply Forall_impl; [exact IH|]. simpl. intros [c|] Hc w0.
    - apply (Hc c eq_refl).
    - repeat split; constructor. }
  destruct (range_children (directory_Generate methods) (omap kept here)
              (children d) w1) as [[r2 w2] below].
  unfold walk_ok in *. run_simpl.
  split; [|split].
  - apply Forall_app. split; [exact Hin|].
    eapply Forall_impl; [exact Hin2|]. simpl. intros c [? ?]. auto.
  - destruct r2 as [e2|].
    + destruct Hres2 as (pre & g & p & f & e & k & -> & Hne & -> & Hpre).
      exists (here ++ pre), g, p, f, e, k. rewrite app_assoc.
      repeat split; auto. apply Forall_app; auto.
    + apply Forall_app; auto.
  - rewrite replay_app, <- Hw. exact Hw2.
Qed.

(** *** The run *)

Lemma range_StartWalk_spec basePath generators (w : World) :
  (range_StartWalk methods basePath generators w).2 =
    (fun g => CallStartWalk g basePath) <$> generators /\
  (range_StartWalk methods basePath generators w).1 =
    replay methods ((fun g => CallStartWalk g basePath) <$> generators) w.
Proof.
  revert w. induction generators as [|g rest IH]; intros w; [split; reflexivity|].
  simpl. destruct (IH (StartWalk (methods g) basePath w)) as [IH1 IH2].
  destruct (range_StartWalk methods basePath rest (StartWalk (methods g) basePath w))
    as [w1 cs]. simpl in *. subst. split; reflexivity.
Qed.

Lemma range_StopWalk_spec generators (w : World) :
  (range_StopWalk methods generators w).2 = CallStopWalk <$> generators /\
  (range_StopWalk methods generators w).1 =
    replay methods (CallStopWalk <$> generators) w.
Proof.
  revert w. induction generators as [|g rest IH]; intros w; [split; reflexivity|].
  simpl. destruct (IH (StopWalk (methods g) w)) as [IH1 IH2].
  destruct (range_StopWalk methods rest (StopWalk (methods g) w)) as [w1 cs].
  simpl in *. subst. split; reflexivity.
Qed.

Lemma stop_count_app x cs1 cs2 :
  stop_count x (cs1 ++ cs2) = stop_count x cs1 + stop_count x cs2.
Proof. unfold stop_count. rewrite filter_app, length_app. reflexivity. Qed.

Lemma stop_count_visits x cs :
  Forall (fun c => is_visit c = true) cs -> stop_count x cs = 0.
Proof.
  unfold stop_count. induction 1 as [|c cs Hc _ IH]; [reflexivity|].
  rewrite filter_cons. destruct (decide (c = CallStopWalk x)) as [->|_];
    [discriminate|exact IH].
Qed.

Lemma stop_count_starts x basePath generators :
  stop_count x ((fun g => CallStartWalk g basePath) <$> generators) = 0.
Proof.
  unfold stop_count. induction generators as [|g rest IH]; [reflexivity|].
  rewrite fmap_cons, filter_cons.
  destruct (decide (CallStartWalk g basePath = CallStopWalk x));
    [discriminate|exact IH].
Qed.

Lemma stop_count_stops x generators :
  stop_count x (CallStopWalk <$> generators) =
    length (filter (fun g => g = x) generators).
Proof.
  unfold stop_count. induction generators as [|g rest IH]; [reflexivity|].
  rewrite fmap_cons, !filter_cons.
  destruct (decide (CallStopWalk g = CallStopWalk x)) as [Heq|Hne];
    destruct (decide (g = x)) as [->|Hgx]; simpl; try congruence.
Qed.

Lemma occurrences_not_in (x : Generator) generators :
  x ∉ generators -> length (filter (fun g => g = x) generators) = 0.
Proof.
  induction generators as [|g rest IH]; intros Hnotin; [reflexivity|].
  rewrite filter_cons. destruct (decide (g = x)) as [->|Hne].
  - exfalso. apply Hnotin. apply list_elem_of_here.
  - apply IH. intros Hin. apply Hnotin. apply list_elem_of_further. exact Hin.
Qed.

Lemma occurrences_NoDup (x : Generator) generators :
  NoDup generators -> x ∈ generators ->
  length (filter (fun g => g = x) generators) = 1.
Proof.
  induction 1 as [|g rest Hnotin _ IH]; intros Hin.
  - inversion Hin.
  - rewrite filter_cons. destruct (decide (g = x)) as [->|Hne].
    + simpl. f_equal. apply occurrences_not_in. exact Hnotin.
    + apply IH. inversion Hin; subst; [contradiction|assumption].
Qed.

Variable Join : string -> string -> string.

(** A run in which the root is a directory and the tree is built: every
    generator is started, the tree is walked, every generator is stopped. *)
Lemma Generate_walk_shape g fs dir (w : World) :
  NewDirectory Join fs (RootPath g) None = (dir, None) ->
  let started := (fun x => CallStartWalk x (RootPath g)) <$> Generators g in
  let walk :=
    directory_Generate methods dir (Generators g) (replay methods started w) in
  let stopped := CallStopWalk <$> Generators g in
  GeneratorCollection_Generate methods Join g (StatDir fs) w =
    (errors_WithStack (result walk),
     replay methods stopped (store walk),
     started ++ calls walk ++ stopped).
Proof.
  intros Hdir. simpl. unfold GeneratorCollection_Generate. rewrite Hdir.
  destruct (range_StartWalk_spec (RootPath g) (Generators g) w) as [Hc Hw].
  destruct (range_StartWalk methods (RootPath g) (Generators g) w) as [w1 cs1].
  simpl in Hc, Hw. subst.
  destruct (directory_Generate methods dir (Generators g) _) as [[r w2] cs2].
  destruct (range_StopWalk_spec (Generators g) w2) as [Hc Hw].
  destruct (range_StopWalk methods (Generators g) w2) as [w3 cs3].
  simpl in Hc, Hw. subst. reflexivity.
Qed.

Lemma Generate_walk_cases g fs dir (w : World) :
  NewDirectory Join fs (RootPath g) None = (dir, None) ->
  let run := GeneratorCollection_Generate methods Join g (StatDir fs) w in
  exists visited,
    calls run =
      ((fun x => CallStartWalk x (RootPath g)) <$> Generators g) ++
      visited ++ (CallStopWalk <$> Generators g) /\
    Forall (fun c => is_visit c = true /\ call_generator c ∈ Generators g)
           visited /\
    (forall y, stop_count y (calls run) =
               length (filter (fun x => x = y) (Generators g))) /\
    ((result run = None /\ Forall (fun c => failed c = false) visited) \/
     (exists pre x p f e k,
        visited = pre ++ [CallVisitDir x p f (Some e)] /\ e <> SkipDir /\
        Forall (fun c => failed c = false) pre /\
        result run = Some (wrapped (S (S k)) e))).
Proof.
  intros Hdir run. subst run. rewrite (Generate_walk_shape _ _ _ _ Hdir).
  set (started := (fun x => CallStartWalk x (RootPath g)) <$> Generators g).
  destruct (directory_Generate_ok dir (Generators g) (replay methods started w))
    as (Hin & Hres & _).
  destruct (directory_Generate methods dir (Generators g) _) as [[r w2] visited].
  run_simpl. exists visited. split; [reflexivity|]. split; [exact Hin|]. split.
  - intros y. rewrite !stop_count_app. unfold started.
    rewrite stop_count_starts, stop_count_stops, stop_count_visits; [lia|].
    eapply Forall_impl; [exact Hin|]. simpl. tauto.
  - destruct r as [e'|].
    + right. destruct Hres as (pre & x & p & f & e & k & -> & Hne & -> & Hpre).
      exists pre, x, p, f, e, k. repeat split; auto.
    + left. split; [reflexivity|exact Hres].
Qed.

(** C9.  When [os.Stat] of the root path fails, when the root path is not
    a directory, and when [NewDirectory] returns an error (as it does when
    the listing of the root fails or its ignore file does not compile),
    [Generate] returns that error, makes no call on any generator and
    leaves the store of the generators as it was. *)
Theorem Generate_fails_before_walk (g : GeneratorCollection) (w : World) :
  (forall err,
     GeneratorCollection_Generate methods Join g (StatFails err) w =
       (Some (WithStack err), w, [])) /\
  GeneratorCollection_Generate methods Join g StatNotDir w =
    (Some (errors_New (RootPath g ++ " is not a directory")%string), w, []) /\
  (forall fs dir err,
     NewDirectory Join fs (RootPath g) None = (dir, Some err) ->
     GeneratorCollection_Generate methods Join g (StatDir fs) w =
       (Some (WithStack err), w, [])) /\
  (forall ign e files,
     (loadIgnores ign None).2 = None ->
     NewDirectory Join (MkFsDir ign (Some e) files) (RootPath g) None =
       (None, Some (WithStack e))) /\
  (forall rules e readDirErr files,
     NewDirectory Join (MkFsDir (IgnoreCompiled rules (Some e)) readDirErr files)
       (RootPath g) None =
       (None, Some (WithStack (WithStack e)))).
Proof.
  split; [|split; [|split; [|split]]].
  - reflexivity.
  - reflexivity.
  - intros fs dir err Hdir. unfold GeneratorCollection_Generate.
    rewrite Hdir. reflexivity.
  - intros ign e files Hload. simpl.
    destruct (loadIgnores ign None) as [rules [e0|]]; [discriminate|reflexivity].
  - reflexivity.
Qed.

(** C1, as the code has it.  When [Generate] returns an error, either the
    error arose before the walk (the root path does not stat, is not a
    directory, or the tree could not be built), and then no generator was
    called at all, neither [StartWalk] nor [StopWalk]; or a call of
    [VisitDir] failed, and then the calls are: [StartWalk] on every
    configured generator, visits none of which failed, the failed visit,
    and [StopWalk] on every configured generator, once for each entry of
    the list (exactly once when no generator is listed twice); the error
    returned is the one of the failed visit, wrapped. *)
Theorem Generate_fatal_error (g : GeneratorCollection) (root : RootStat)
    (w : World) (e' : error) :
  let run := GeneratorCollection_Generate methods Join g root w in
  result run = Some e' ->
  (((exists err, root = StatFails err /\ e' = WithStack err) \/
    (root = StatNotDir /\
     e' = errors_New (RootPath g ++ " is not a directory")%string) \/
    (exists fs dir err,
       root = StatDir fs /\
       NewDirectory Join fs (RootPath g) None = (dir, Some err) /\
       e' = WithStack err)) /\
   calls run = [] /\ store run = w)
  \/
  (exists pre x p f e k,
     calls run =
       ((fun x => CallStartWalk x (RootPath g)) <$> Generators g) ++
       (pre ++ [CallVisitDir x p f (Some e)]) ++
       (CallStopWalk <$> Generators g) /\
     Forall (fun c => is_visit c = true /\ failed c = false) pre /\
     e <> SkipDir /\ e' = wrapped (S (S k)) e /\
     (forall y, stop_count y (calls run) =
                length (filter (fun x => x = y) (Generators g))) /\
     (NoDup (Generators g) ->
      forall y, y ∈ Generators g -> stop_count y (calls run) = 1)).
Proof.
  intros run Hres. destruct root as [err| |fs].
  - left. injection Hres as <-. repeat split; eauto.
  - left. injection Hres as <-. repeat split; eauto.
  - destruct (NewDirectory Join fs (RootPath g) None) as [dir [err|]] eqn:Hdir.
    + left. subst run. unfold GeneratorCollection_Generate in *.
      rewrite Hdir in *. injection Hres as <-.
      repeat split; eauto 10.
    + right.
      destruct (Generate_walk_cases g fs dir w Hdir)
        as (visited & Hcalls & Hin & Hstop & Hcases).
      fold run in Hcalls, Hstop, Hcases.
      destruct Hcases as [[Hnone _]|(pre & x & p & f & e & k & -> & Hne & Hpre & Hr)];
        [congruence|].
      exists pre, x, p, f, e, k.
      split; [exact Hcalls|]. split.
      { apply Forall_app in Hin as [Hin _].
        rewrite Forall_forall in Hin, Hpre |- *. intros c Hc.
        split; [apply (Hin c Hc)|apply (Hpre c Hc)]. }
      split; [exact Hne|]. split; [congruence|]. split; [exact Hstop|].
      intros Hnd y Hy. rewrite Hstop. apply occurrences_NoDup; assumption.
Qed.

(** C6.  When a call of [VisitDir] returns an error other than
    [filepath.SkipDir], it is the last call of [VisitDir] of the run: the
    calls are [StartWalk] on every generator, visits none of which
    failed, the failed visit, and then only [StopWalk], on every
    configured generator, once for each entry of the list (exactly once
    when no generator is listed twice); and [Generate] returns the error
    of the failed visit, wrapped. *)
Theorem VisitDir_failure_aborts_run (g : GeneratorCollection)
    (root : RootStat) (w : World) (c : Call) :
  let run := GeneratorCollection_Generate methods Join g root w in
  c ∈ calls run -> failed c = true ->
  exists pre x p f e k,
    c = CallVisitDir x p f (Some e) /\ e <> SkipDir /\
    calls run =
      ((fun x => CallStartWalk x (RootPath g)) <$> Generators g) ++
      (pre ++ [c]) ++ (CallStopWalk <$> Generators g) /\
    Forall (fun c => is_visit c = true /\ failed c = false) pre /\
    result run = Some (wrapped (S (S k)) e) /\
    (forall y, stop_count y (calls run) =
               length (filter (fun x => x = y) (Generators g))) /\
    (NoDup (Generators g) ->
     forall y, y ∈ Generators g -> stop_count y (calls run) = 1).
Proof.
  intros run Hc Hfailed.
  assert (Hshape : exists fs dir, root = StatDir fs /\
            NewDirectory Join fs (RootPath g) None = (dir, None)).
  { destruct root as [err| |fs]; [inversion Hc|inversion Hc|].
    destruct (NewDirectory Join fs (RootPath g) None) as [dir [err|]] eqn:Hdir;
      [|eauto].
    subst run. unfold GeneratorCollection_Generate in Hc. rewrite Hdir in Hc.
    inversion Hc. }
  destruct Hshape as (fs & dir & -> & Hdir).
  destruct (Generate_walk_cases g fs dir w Hdir)
    as (visited & Hcalls & Hin & Hstop & Hcases).
  fold run in Hcalls, Hstop, Hcases.
  assert (Hcv : c ∈ visited).
  { rewrite Hcalls in Hc. rewrite !elem_of_app in Hc.
    destruct Hc as [Hc|[Hc|Hc]]; [|exact Hc|];
      apply list_elem_of_fmap in Hc as (y & -> & _); discriminate. }
  destruct Hcases as [[_ Hnf]|(pre & x & p & f & e & k & -> & Hne & Hpre & Hr)].
  { rewrite Forall_forall in Hnf. rewrite (Hnf c Hcv) in Hfailed. discriminate. }
  assert (c = CallVisitDir x p f (Some e)) as ->.
  { apply elem_of_app in Hcv as [Hcv|Hcv].
    - rewrite Forall_forall in Hpre. rewrite (Hpre c Hcv) in Hfailed.
      discriminate.
    - apply list_elem_of_singleton in Hcv. exact Hcv. }
  exists pre, x, p, f, e, k.
  split; [reflexivity|]. split; [exact Hne|]. split; [exact Hcalls|]. split.
  { apply Forall_app in Hin as [Hin _].
    rewrite Forall_forall in Hin, Hpre |- *. intros c Hc'.
    split; [apply (Hin c Hc')|apply (Hpre c Hc')]. }
  split; [exact Hr|]. split; [exact Hstop|].
  intros Hnd y Hy. rewrite Hstop. apply occurrences_NoDup; assumption.
Qed.

(** *** Claims and skips *)

(** The walk of a node, from the loop over the generators at that node. *)
Lemma Generate_from_loop (d : directory) generators (w : World) :
  let loop := range_generators methods (Path d) generators [] w in
  directory_Generate methods (Some d) generators w =
    match result loop with
    | inl err => (Some err, store loop, calls loop)
    | inr childGenerators =>
        let below :=
          range_children (directory_Generate methods) childGenerators
            (children d) (store loop) in
        (result below, store below, calls loop ++ calls below)
    end.
Proof.
  intros loop. subst loop. rewrite directory_Generate_unfold.
  destruct generators as [|g rest].
  - simpl. rewrite range_children_no_generators. reflexivity.
  - change (Nat.eqb (length (g :: rest)) 0) with false. cbv iota.
    destruct (range_generators methods (Path d) (g :: rest) [] w)
      as [[[e|cg] w1] here]; run_simpl; [reflexivity|].
    destruct (range_children (directory_Generate methods) cg (children d) w1)
      as [[r w2] below]. reflexivity.
Qed.

(** A generator of the list is called at a directory unless a generator
    before it in the list claims the directory or fails there. *)
Lemma generator_visited_unless_stopped path generators cg0 (w : World) j y :
  generators !! j = Some y ->
  (forall k c, k < j ->
     calls (range_generators methods path generators cg0 w) !! k = Some c ->
     claimed c = false /\ failed c = false) ->
  exists f e,
    calls (range_generators methods path generators cg0 w) !! j =
      Some (CallVisitDir y path f e).
Proof.
  intros Hj Hbefore.
  destruct (range_generators methods path generators cg0 w)
    as [[r w1] here] eqn:Hloop.
  destruct (range_generators_spec _ _ _ _ _ _ _ Hloop)
    as (Hvis & _ & Hearly & _ & _).
  run_simpl.
  assert (Hlen : j < length here).
  { destruct (decide (j < length here)) as [|Hge]; [assumption|exfalso].
    apply lookup_lt_Some in Hj.
    destruct Hearly as (c & Hlast & Hstop); [lia|].
    rewrite last_lookup in Hlast.
    destruct here as [|c0 here']; [discriminate|].
    simpl in Hlast, Hge.
    destruct (Hbefore (length here') c ltac:(lia) Hlast) as [H1 H2].
    rewrite H1, H2 in Hstop. discriminate. }
  destruct (lookup_lt_is_Some_2 here j Hlen) as [c Hc].
  assert (Htake : take (length here) generators !! j = Some y).
  { rewrite lookup_take_lt by exact Hlen. exact Hj. }
  destruct (Forall2_lookup_lr _ _ _ _ _ _ Hvis Htake Hc) as (f & e & ->).
  exists f, e. exact Hc.
Qed.

(** A call that claims its directory is the last of the loop, and made by
    the generator at its position. *)
Lemma claim_or_failure_ends_loop path generators cg0 (w : World) i c :
  calls (range_generators methods path generators cg0 w) !! i = Some c ->
  (exists y, generators !! i = Some y /\ visit_of path y c) /\
  (claimed c || failed c = true ->
   length (calls (range_generators methods path generators cg0 w)) = S i).
Proof.
  intros Hc.
  destruct (range_generators methods path generators cg0 w)
    as [[r w1] here] eqn:Hloop.
  destruct (range_generators_spec _ _ _ _ _ _ _ Hloop)
    as (Hvis & Hstop & _ & _ & _).
  run_simpl. split.
  - destruct (Forall2_lookup_r _ _ _ _ _ Hvis Hc) as (y & Hy & Hv).
    exists y. split; [|exact Hv].
    rewrite lookup_take_lt in Hy; [exact Hy|].
    apply lookup_lt_Some in Hc. exact Hc.
  - apply Hstop. exact Hc.
Qed.

Lemma range_children_walk_ok generators cs (w : World) :
  walk_ok methods generators w
    (range_children (directory_Generate methods) generators cs w).
Proof.
  apply range_children_ok. apply Forall_forall. intros child _ w0.
  apply directory_Generate_ok.
Qed.

(** The generators kept for the children are picked, in order, among the
    generators called. *)
Lemma kept_sublist path gs cs :
  Forall2 (visit_of path) gs cs -> omap kept cs `sublist_of` gs.
Proof.
  induction 1 as [|g c gs cs (f & e & ->) _ IH]; [constructor|].
  simpl. destruct (decide (e = Some SkipDir)).
  - apply sublist_cons. exact IH.
  - apply sublist_skip. exact IH.
Qed.

(** The loop over a list of child slots hands the same generators to the
    slots after [child] as to [child] and to the slots before it, whatever
    the walk of [child] did, short of returning an error. *)
Lemma range_children_through generators before child after (w0 : World) :
  let prior :=
    range_children (directory_Generate methods) generators before w0 in
  let walk := directory_Generate methods child generators (store prior) in
  result prior = None -> result walk = None ->
  range_children (directory_Generate methods) generators
    (before ++ child :: after) w0 =
    let rest :=
      range_children (directory_Generate methods) generators after
        (store walk) in
    (result rest, store rest, calls prior ++ calls walk ++ calls rest).
Proof.
  intros prior walk Hprior Hwalk. subst prior walk.
  rewrite range_children_app.
  destruct (range_children (directory_Generate methods) generators before w0)
    as [[r1 w1] cs1]. run_simpl. subst r1.
  rewrite range_children_cons.
  destruct (directory_Generate methods child generators w1) as [[r2 w2] cs2].
  run_simpl. subst r2.
  destruct (range_children (directory_Generate methods) generators after w2)
    as [[r3 w3] cs3]. reflexivity.
Qed.

(** At any directory walked with [generators], the generator at position
    [j] is called, unless one before it claims the directory or fails. *)
Lemma generator_visited_at (E : directory) generators (wE : World) j y :
  generators !! j = Some y ->
  (forall k c, k < j ->
     calls (range_generators methods (Path E) generators [] wE) !! k = Some c ->
     claimed c = false /\ failed c = false) ->
  exists f e,
    calls (directory_Generate methods (Some E) generators wE) !! j =
      Some (CallVisitDir y (Path E) f e).
Proof.
  intros Hj Hbefore.
  destruct (generator_visited_unless_stopped _ _ _ _ _ _ Hj Hbefore)
    as (f & e & Hc).
  exists f, e. rewrite Generate_from_loop. cbv zeta.
  destruct (result (range_generators methods (Path E) generators [] wE));
    run_simpl; [exact Hc|].
  apply lookup_app_l_Some. exact Hc.
Qed.

(** The loop over the generators, read through the projections. *)
Lemma loop_spec path generators cg0 (w : World) :
  let loop := range_generators methods path generators cg0 w in
  Forall2 (visit_of path) (take (length (calls loop)) generators) (calls loop) /\
  (forall cg, result loop = inr cg -> cg = cg0 ++ omap kept (calls loop)) /\
  store loop = replay methods (calls loop) w.
Proof.
  intros loop. subst loop.
  destruct (range_generators methods path generators cg0 w)
    as [[r w1] here] eqn:Hloop.
  destruct (range_generators_spec _ _ _ _ _ _ _ Hloop)
    as (Hvis & _ & _ & Hres & Hw).
  run_simpl. split; [exact Hvis|]. split; [|exact Hw].
  intros cg ->. apply Hres.
Qed.



(** A call that neither claims nor fails is followed by the call of the
    next generator of the list, when there is one. *)
Lemma loop_continues path generators cg0 (w : World) i c :
  calls (range_generators methods path generators cg0 w) !! i = Some c ->
  claimed c = false -> failed c = false ->
  S i < length generators ->
  S i < length (calls (range_generators methods path generators cg0 w)).
Proof.
  intros Hc Hcl Hf Hlt.
  destruct (range_generators methods path generators cg0 w)
    as [[r w1] here] eqn:Hloop.
  destruct (range_generators_spec _ _ _ _ _ _ _ Hloop)
    as (_ & _ & Hearly & _ & _).
  run_simpl. pose proof (lookup_lt_Some _ _ _ Hc) as Hi.
  destruct (decide (S i < length here)) as [|Hge]; [assumption|exfalso].
  destruct Hearly as (c' & Hlast & Hstop); [lia|].
  rewrite last_lookup in Hlast.
  replace (pred (length here)) with i in Hlast by lia.
  rewrite Hc in Hlast. injection Hlast as <-.
  rewrite Hcl, Hf in Hstop. discriminate.
Qed.

(** The generators kept for the children lie in the list without the
    position of a call that returned [filepath.SkipDir]. *)
Lemma kept_sublist_delete path cs : forall generators i c,
  Forall2 (visit_of path) (take (length cs) generators) cs ->
  cs !! i = Some c -> kept c = None ->
  omap kept cs `sublist_of` delete i generators.
Proof.
  induction cs as [|c0 cs IH]; intros generators i c Hvis Hc Hk;
    [discriminate|].
  destruct generators as [|g rest]; [inversion Hvis|].
  simpl in Hvis. apply Forall2_cons in Hvis as [Hg Hvis].
  destruct i as [|i]; simpl in Hc |- *.
  - injection Hc as ->. rewrite Hk.
    etransitivity; [eapply kept_sublist; exact Hvis|apply sublist_take].
  - destruct Hg as (f & e & ->). simpl.
    destruct (decide (e = Some SkipDir)).
    + apply sublist_cons. eapply IH; eassumption.
    + apply sublist_skip. eapply IH; eassumption.
Qed.

Lemma not_elem_of_delete_NoDup (generators : list Generator) i x :
  NoDup generators -> generators !! i = Some x -> x ∉ delete i generators.
Proof.
  intros Hnd Hi Hin. apply list_elem_of_lookup in Hin as [j Hj].
  rewrite list_lookup_delete in Hj.
  destruct (decide (j < i)).
  - pose proof (NoDup_lookup _ _ _ _ Hnd Hi Hj). lia.
  - pose proof (NoDup_lookup _ _ _ _ Hnd Hi Hj). lia.
Qed.

(** C5.  Let the call at position [i] of the loop over the generators at
    [d] return [filepath.SkipDir].  The generator at position [i] has
    then been called at [d].  The call does not end the loop: unless it
    also returned [found = true], the next generator of the list is
    called at [d]; and the walk returns an error only when its last call
    returned an error that is not the sentinel.  The list handed to every
    child of [d] lies in the list without position [i], so that the
    generator is called nowhere below [d] (when it is listed once).  The
    store after the walk is the one the methods called left: the walk
    itself writes nothing, no recorded error in particular.  A list of
    child slots is walked with one and the same list of generators before
    and after the slot of [d], and at any directory [E] walked with that
    list every generator of it is called unless one before it claims [E]
    or fails there. *)
Theorem SkipDir_excludes_below (d : directory) (generators : list Generator)
    (w : World) (i : nat) (x : Generator) (found : bool) :
  let loop := range_generators methods (Path d) generators [] w in
  let walk := directory_Generate methods (Some d) generators w in
  calls loop !! i = Some (CallVisitDir x (Path d) found (Some SkipDir)) ->
  (generators !! i = Some x /\
   calls walk !! i = Some (CallVisitDir x (Path d) found (Some SkipDir))) /\
  ((found = false -> S i < length generators -> S i < length (calls loop)) /\
   (forall e', result walk = Some e' ->
      exists pre y p f e k,
        calls walk = pre ++ [CallVisitDir y p f (Some e)] /\ e <> SkipDir /\
        e' = wrapped (S k) e /\ Forall (fun c => failed c = false) pre) /\
   (Forall (fun c => failed c = false) (calls walk) -> result walk = None)) /\
  (forall childGenerators, result loop = inr childGenerators ->
     childGenerators `sublist_of` delete i generators /\
     walk =
       (let below :=
          range_children (directory_Generate methods) childGenerators
            (children d) (store loop) in
        (result below, store below, calls loop ++ calls below)) /\
     (NoDup generators ->
      (x ∉ childGenerators) /\
      (forall c,
         c ∈ calls (range_children (directory_Generate methods)
                      childGenerators (children d) (store loop)) ->
         call_generator c <> x))) /\
  store walk = replay methods (calls walk) w /\
  (forall before after w0,
     let prior :=
       range_children (directory_Generate methods) generators before w0 in
     result prior = None -> store prior = w -> result walk = None ->
     range_children (directory_Generate methods) generators
       (before ++ Some d :: after) w0 =
       let rest :=
         range_children (directory_Generate methods) generators after
           (store walk) in
       (result rest, store rest, calls prior ++ calls walk ++ calls rest)) /\
  (forall (E : directory) wE j y,
     generators !! j = Some y ->
     (forall k c, k < j ->
        calls (range_generators methods (Path E) generators [] wE) !! k = Some c ->
        claimed c = false /\ failed c = false) ->
     exists f e,
       calls (directory_Generate methods (Some E) generators wE) !! j =
         Some (CallVisitDir y (Path E) f e)).
Proof.
  intros loop walk Hi.
  destruct (claim_or_failure_ends_loop _ _ _ _ _ _ Hi)
    as [(y & Hy & (f & e & Heq)) _].
  injection Heq as <- <- <-.
  destruct (loop_spec (Path d) generators [] w) as (Hvis & Hres & _).
  fold loop in Hvis, Hres.
  destruct (directory_Generate_ok (Some d) generators w) as (_ & Hok & Hw).
  fold walk in Hok, Hw.
  assert (Hwalk : walk =
            match result loop with
            | inl err => (Some err, store loop, calls loop)
            | inr childGenerators =>
                let below :=
                  range_children (directory_Generate methods) childGenerators
                    (children d) (store loop) in
                (result below, store below, calls loop ++ calls below)
            end) by apply Generate_from_loop.
  split; [|split; [|split; [|split; [|split]]]].
  - split; [exact Hy|]. rewrite Hwalk.
    destruct (result loop); [exact Hi|]. apply lookup_app_l_Some. exact Hi.
  - split; [|split].
    + intros -> Hlt. eapply loop_continues; eauto.
    + intros e' He'. rewrite He' in Hok. exact Hok.
    + intros Hnf. destruct (result walk) as [e'|]; [exfalso|reflexivity].
      destruct Hok as (pre & y' & p & f & e & k & Hcalls & Hne & _).
      rewrite Hcalls in Hnf. apply Forall_app in Hnf as [_ Hlast].
      rewrite Forall_singleton in Hlast.
      rewrite failed_visit in Hlast by exact Hne. discriminate.
  - intros cg Hcg.
    assert (Hsub : cg `sublist_of` delete i generators).
    { rewrite (Hres cg Hcg). simpl.
      eapply kept_sublist_delete; [exact Hvis|exact Hi|reflexivity]. }
    split; [exact Hsub|]. split.
    + rewrite Hwalk, Hcg. reflexivity.
    + intros Hnd.
      pose proof (not_elem_of_delete_NoDup _ _ _ Hnd Hy) as Hnotin.
      split.
      * intros Hin. apply Hnotin. eapply sublist_subseteq; eassumption.
      * intros c Hc Hgen.
        destruct (range_children_walk_ok cg (children d) (store loop))
          as (Hin & _ & _).
        rewrite Forall_forall in Hin. destruct (Hin c Hc) as [_ Hcin].
        apply Hnotin. rewrite <- Hgen.
        eapply sublist_subseteq; eassumption.
  - exact Hw.
  - intros before after w0 prior Hprior Hstore Hres'.
    pose proof (range_children_through generators before (Some d) after w0)
      as Hthrough.
    cbv zeta in Hthrough. fold prior in Hthrough. rewrite Hstore in Hthrough.
    apply Hthrough; assumption.
  - intros E wE j y'. apply generator_visited_at.
Qed.

(** *** The tree builder *)

Lemma FsDir_entries_ind (P : FsDir -> Prop) :
  (forall ignoreFile readDirErr files,
     Forall (fun file => forall sub, file.2 = Some sub -> P sub) files ->
     P (MkFsDir ignoreFile readDirErr files)) ->
  forall fs, P fs.
Proof.
  intros step. fix IH 1. intros [ign rd files]. apply step.
  induction files as [|[name o] files IHfiles]; constructor; [|exact IHfiles].
  simpl. destruct o as [q|]; intros sub Hsub.
  - replace sub with q by congruence. apply IH.
  - discriminate.
Qed.

Lemma nodes_unfold d :
  nodes d = d :: (children d ≫= nodes_of).
Proof.
  destruct d as [path parent cs ign]. simpl. f_equal.
  induction cs as [|[c|] cs IH]; simpl; [reflexivity| |exact IH].
  f_equal. exact IH.
Qed.


(** The loop over the entries: what it returns when it returns a node. *)
Lemma range_files_spec build node files : forall cs d,
  range_files build node files cs = (Some d, None) ->
  exists slots,
    d = node (cs ++ slots) /\
    Forall2 (fun entry slot => build entry.1 entry.2 = (slot, None))
            (subdirs files) slots.
Proof.
  induction files as [|[name [sub|]] files IH]; intros cs d Hrun; simpl in Hrun.
  - injection Hrun as <-. exists []. rewrite app_nil_r. split; [reflexivity|constructor].
  - destruct (build name sub) as [child [err|]] eqn:Hbuild; [discriminate|].
    destruct (IH _ _ Hrun) as (slots & -> & Hslots).
    exists (child :: slots). rewrite <- app_assoc. split; [reflexivity|].
    unfold subdirs. simpl. constructor; [exact Hbuild|exact Hslots].
  - apply IH. exact Hrun.
Qed.

(** What [NewDirectory] returns when it returns a node: the node of
    [path], with the ruleset loaded from its ignore file, and one child
    slot for every subdirectory of the listing, in listing order, built
    with this node as parent. *)
Lemma NewDirectory_node fs path parent d :
  NewDirectory Join fs path parent = (Some d, None) ->
  ignored_by parent path = false /\
  Path d = path /\ Parent d = parent /\
  ignores d = (loadIgnores (fs_ignoreFile fs) None).1 /\
  Forall2 (fun entry slot =>
             NewDirectory Join entry.2 (Join path entry.1)
               (Some (Directory path parent [] (ignores d))) = (slot, None))
          (subdirs (fs_entries fs)) (children d).
Proof.
  intros Hnew. destruct fs as [ign rd files]. simpl in Hnew.
  destruct (ignored_by parent path); [discriminate|].
  destruct (loadIgnores ign None) as [rules [err|]] eqn:Hload; [discriminate|].
  destruct rd as [err|]; [discriminate|].
  apply range_files_spec in Hnew as (slots & -> & Hslots).
  simpl. rewrite Hload. repeat split; auto.
Qed.





End WalkFacts.

(** ** Aggregation *)

(** The order of names: [String.ltb] is the strict lexicographic order on
    the characters' codes, and "not less" is "at most". *)
Lemma ltb_lexicographic (a b : string) :
  String.ltb a b = true <-> OrderedTypeEx.String_as_OT.lt a b.
Proof.
  unfold String.ltb. rewrite <- OrderedTypeEx.String_as_OT.cmp_lt.
  unfold OrderedTypeEx.String_as_OT.cmp.
  destruct (String.compare a b); split; congruence.
Qed.

Lemma ltb_false_leb (a b : string) :
  String.ltb b a = false <-> String.leb a b = true.
Proof.
  unfold String.ltb, String.leb.
  pose proof (OrderedTypeEx.String_as_OT.cmp_antisym a b) as Hanti.
  unfold OrderedTypeEx.String_as_OT.cmp in Hanti. rewrite Hanti.
  destruct (String.compare b a); simpl; split; congruence.
Qed.

Lemma leb_lexicographic (a b : string) :
  String.leb a b = true <-> a = b \/ OrderedTypeEx.String_as_OT.lt a b.
Proof.
  rewrite <- ltb_lexicographic. unfold String.leb, String.ltb.
  pose proof (OrderedTypeEx.String_as_OT.cmp_eq a b) as Heq.
  unfold OrderedTypeEx.String_as_OT.cmp in Heq.
  destruct (String.compare a b); split; try congruence; try tauto.
  - intros [H|H]; [|discriminate]. apply Heq in H. discriminate.
Qed.

Lemma leb_trans (a b c : string) :
  String.leb a b = true -> String.leb b c = true -> String.leb a c = true.
Proof.
  rewrite !leb_lexicographic. intros [->|Hab] [->|Hbc]; auto.
  right. eapply OrderedTypeEx.String_as_OT.lt_trans; eassumption.
Qed.

Lemma strict_weak_by_name {A} (name : A -> string) :
  strict_weak (fun a b => String.ltb (name a) (name b)).
Proof.
  split.
  - intros a b Hab. apply ltb_false_leb. apply leb_lexicographic. right.
    apply ltb_lexicographic. exact Hab.
  - intros a b c. rewrite !ltb_false_leb. apply leb_trans.
Qed.

Section AggregateFacts.

Context {World : Type} {sorter : Sorter}.
Variable methods : Generator -> GeneratorImpl World.

(** The loop that gathers the records of the generators, together with
    the map from record names to generator names that it fills. *)
Lemma gather_spec {A} (cap : GeneratorImpl World -> option (World -> list A))
    (name : A -> string) (w : World) generators :
  forall (out : list A) (m : gmap string string),
    (foldl
       (fun '(out, m) generator =>
          match cap (methods generator) with
          | Some records =>
              if decide (Err (methods generator) w = None) then
                let found := records w in
                let m : gmap string string :=
                  foldl (fun m r => <[name r := Name (methods generator) w]> m)
                        m found in
                (out ++ found, m)
              else (out, m)
          | None => (out, m)
          end)
       (out, m) generators).1 =
    out ++ (generators ≫= contribution methods cap w).
Proof.
  induction generators as [|g rest IH]; intros out m; simpl.
  - rewrite app_nil_r. reflexivity.
  - unfold contribution at 1.
    destruct (cap (methods g)) as [records|]; [|rewrite IH; reflexivity].
    destruct (decide (Err (methods g) w = None)); [|rewrite IH; reflexivity].
    rewrite IH, <- app_assoc. reflexivity.
Qed.

(** The map built from the targets holds exactly the targets. *)
Lemma filterMap_spec (targets : list string) (name : string) :
  forall (m : gmap string unit),
    is_Some (foldl (fun m name => <[name := tt]> m) m targets !! name) <->
    name ∈ targets \/ is_Some (m !! name).
Proof.
  induction targets as [|t targets IH]; intros m; simpl.
  - rewrite elem_of_nil. tauto.
  - rewrite IH, elem_of_cons. destruct (decide (t = name)) as [->|Hne].
    + rewrite lookup_insert_eq. split; [intros _|intros _; right; eauto].
      left. left. reflexivity.
    + rewrite lookup_insert_ne by exact Hne. split.
      * intros [?|?]; auto.
      * intros [[->|?]|?]; auto. congruence.
Qed.

(** The loop that keeps the records named by a target is a filter. *)
Lemma keep_targets_spec {A} (name : A -> string) (targets : list string)
    (records : list A) :
  forall (acc : list A),
    foldl
      (fun acc r =>
         match foldl (fun m name => <[name := tt]> m) (∅ : gmap string unit)
                 targets !! name r with
         | Some _ => acc ++ [r]
         | None => acc
         end)
      acc records =
    acc ++ filter (fun r => name r ∈ targets) records.
Proof.
  induction records as [|r records IH]; intros acc; simpl.
  - rewrite app_nil_r. reflexivity.
  - rewrite IH, filter_cons.
    pose proof (filterMap_spec targets (name r) ∅) as Hmap.
    destruct (foldl _ ∅ targets !! name r) as [u|] eqn:Hlook.
    + rewrite decide_True; [rewrite <- app_assoc; reflexivity|].
      destruct Hmap as [Hmap _]. destruct Hmap as [?|[? Hx]]; eauto.
      rewrite lookup_empty in Hx. discriminate.
    + rewrite decide_False; [reflexivity|].
      intros Hin. destruct Hmap as [_ Hmap].
      destruct Hmap as [? Hx]; [left; exact Hin|discriminate].
Qed.

Lemma Sorted_weaken {A} (R1 R2 : A -> A -> Prop) (l : list A) :
  (forall a b, R1 a b -> R2 a b) -> Sorted R1 l -> Sorted R2 l.
Proof.
  intros Himp. induction 1 as [|a l _ IH Hhd]; constructor; [exact IH|].
  destruct Hhd; constructor. apply Himp. assumption.
Qed.

Lemma sort_by_name {A} (name : A -> string) (l : list A) :
  sort_Sort (fun a b => String.ltb (name a) (name b)) l ≡ₚ l /\
  Sorted (fun a b => String.leb (name a) (name b) = true)
    (sort_Sort (fun a b => String.ltb (name a) (name b)) l).
Proof.
  split; [apply sort_Sort_perm|].
  eapply Sorted_weaken; [|apply sort_Sort_sorted, strict_weak_by_name].
  simpl. intros a b. apply ltb_false_leb.
Qed.

Lemma imports_loop_spec (w : World) generators : forall acc : list string,
  foldl
    (fun outImports generator =>
       match ImportGenerator (methods generator) with
       | Some importGenerator =>
           if decide (Err (methods generator) w = None)
           then outImports ++ importGenerator w
           else outImports
       | None => outImports
       end)
    acc generators =
  acc ++ (generators ≫= (fun generator =>
    match ImportGenerator (methods generator) with
    | Some imports =>
        if decide (Err (methods generator) w = None) then imports w else []
    | None => []
    end)).
Proof.
  induction generators as [|g rest IH]; intros acc; simpl.
  - rewrite app_nil_r. reflexivity.
  - rewrite IH. destruct (ImportGenerator (methods g)) as [imports|];
      [|reflexivity].
    destruct (decide (Err (methods g) w = None)); [|reflexivity].
    rewrite <- app_assoc. reflexivity.
Qed.

(** C7.  [Imports] is the concatenation, in the order of the configured
    generators, of the imports of every generator that is an
    [ImportGenerator] and has no recorded error; the targets play no
    part, and nothing is sorted. *)
Theorem Imports_concatenates (generators : list Generator) (path : string)
    (targets : list string) (w : World) :
  Imports methods
    {| Generators := generators; RootPath := path; Targets := targets |} w =
    generators ≫= (fun generator =>
      match ImportGenerator (methods generator) with
      | Some imports =>
          if decide (Err (methods generator) w = None) then imports w else []
      | None => []
      end).
Proof.
  unfold Imports. simpl Generators. apply (imports_loop_spec w generators []).
Qed.

(** C2.  [Services] returns a rearrangement of the records of the
    generators that are [ServiceGenerator]s and have no recorded error,
    concatenated in the order of the configured generators (with every
    duplicate), restricted, when there are targets, to the records whose
    name is a target; and what it returns is sorted by name, ascending.
    [Groups] does the same with [GroupGenerator]s. *)
Theorem Services_Groups_sorted_selection (g : GeneratorCollection) (w : World) :
  let services :=
    Generators g ≫= contribution methods ServiceGenerator w in
  let groups :=
    Generators g ≫= contribution methods GroupGenerator w in
  (Services methods g w ≡ₚ
     (if decide (Targets g = []) then services
      else filter (fun s => services.Name s ∈ Targets g) services) /\
   Sorted (fun a b => String.leb (services.Name a) (services.Name b) = true)
     (Services methods g w)) /\
  (Groups methods g w ≡ₚ
     (if decide (Targets g = []) then groups
      else filter (fun s => services.GroupName s ∈ Targets g) groups) /\
   Sorted (fun a b =>
             String.leb (services.GroupName a) (services.GroupName b) = true)
     (Groups methods g w)).
Proof.
  intros services groups. split.
  - unfold Services.
    pose proof (gather_spec ServiceGenerator services.Name w (Generators g) [] ∅)
      as Hgather.
    destruct (foldl _ ([], ∅) (Generators g)) as [out m]. simpl in Hgather.
    fold services in Hgather. subst out.
    destruct (Targets g) as [|t ts] eqn:Htargets.
    + simpl. apply (sort_by_name services.Name).
    + change (Nat.eqb (length (t :: ts)) 0) with false. cbv iota.
      rewrite (keep_targets_spec services.Name (t :: ts) services []).
      rewrite decide_False by discriminate. simpl.
      apply (sort_by_name services.Name).
  - unfold Groups.
    pose proof (gather_spec GroupGenerator services.GroupName w (Generators g) [] ∅)
      as Hgather.
    destruct (foldl _ ([], ∅) (Generators g)) as [out m]. simpl in Hgather.
    fold groups in Hgather. subst out.
    destruct (Targets g) as [|t ts] eqn:Htargets.
    + simpl. apply (sort_by_name services.GroupName).
    + change (Nat.eqb (length (t :: ts)) 0) with false. cbv iota.
      rewrite (keep_targets_spec services.GroupName (t :: ts) groups []).
      rewrite decide_False by discriminate. simpl.
      apply (sort_by_name services.GroupName).
Qed.

End AggregateFacts.

(* ===================================================================== *)
(** * The example run *)

Section ExampleRun.

Import Example.

(** The tree built for [R]: [R/B] is matched by the rules of [R] and is
    left out, with what lies below it. *)
Example built_paths :
  Path <$> nodes_of (NewDirectory Join fs "R" None).1 =
    ["R"; "R/X"; "R/X/Y"; "R/Z"].
Proof. reflexivity. Qed.

(** Generator 0 claims [R/X]: generator 1 is called neither there nor at
    [R/X/Y], and is called again at [R/Z]. *)
Example run_calls :
  calls (GeneratorCollection_Generate methods Join (collection [0; 1] [])
           (StatDir fs) w0) =
    [CallStartWalk 0 "R"; CallStartWalk 1 "R";
     CallVisitDir 0 "R" false None; CallVisitDir 1 "R" false None;
     CallVisitDir 0 "R/X" true None; CallVisitDir 0 "R/X/Y" false None;
     CallVisitDir 0 "R/Z" false None; CallVisitDir 1 "R/Z" false None;
     CallStopWalk 0; CallStopWalk 1].
Proof. reflexivity. Qed.

(** In one loop over the slots of [R/X] and [R/Z], generator 1 is kept away
    from [R/X/Y] by the claim of generator 0 at [R/X], and is called at
    [R/Z]. *)
Example siblings_keep_generators :
  calls (range_children (directory_Generate methods) [0; 1]
           [Some dirX; None; Some dirZ] w0) =
    [CallVisitDir 0 "R/X" true None; CallVisitDir 0 "R/X/Y" false None;
     CallVisitDir 0 "R/Z" false None; CallVisitDir 1 "R/Z" false None].
Proof. reflexivity. Qed.

(** Generator 0 holds a recorded error in [w0]: its services are left
    out.  After a run, which resets that error, they are there, both
    records named [api] among them. *)
Example services_with_recorded_error :
  Services (sorter := merge_sorter) methods (collection [0; 1] []) w0 =
    [svc "api" 4; svc "db" 3].
Proof. reflexivity. Qed.

Example services_after_run :
  Services (sorter := merge_sorter) methods (collection [0; 1] [])
    (store (GeneratorCollection_Generate methods Join (collection [0; 1] [])
              (StatDir fs) w0)) =
    [svc "api" 2; svc "api" 4; svc "db" 3; svc "web" 1].
Proof. reflexivity. Qed.

(** C1 does not hold as it is stated: here the root path is not a
    directory, [Generate] returns an error, and [StopWalk] is not called
    on the configured generator. *)
Lemma Generate_not_a_directory_stops_nothing :
  result (GeneratorCollection_Generate methods Join (collection [0] [])
            StatNotDir w0) = Some (errors_New "R is not a directory") /\
  0 ∈ Generators (collection [0] []) /\
  stop_count 0 (calls (GeneratorCollection_Generate methods Join
                         (collection [0] []) StatNotDir w0)) = 0 /\
  stop_count 0 (calls (GeneratorCollection_Generate methods Join
                         (collection [0] []) StatNotDir w0)) <> 1.
Proof.
  split; [reflexivity|]. split; [apply list_elem_of_here|].
  split; [reflexivity|]. discriminate.
Qed.

(** The run with generators 0 and 2 fails at [R/Z]; generator 2 is stopped
    once. *)
Lemma Generate_fatal_error_witness :
  result (GeneratorCollection_Generate methods Join (collection [0; 2] [])
            (StatDir fs) w0) =
    Some (wrapped 3 (errors_New "unreadable")) /\
  stop_count 2 (calls (GeneratorCollection_Generate methods Join
                         (collection [0; 2] []) (StatDir fs) w0)) = 1.
Proof.
  split; [reflexivity|].
  destruct (Generate_fatal_error methods Join (collection [0; 2] [])
              (StatDir fs) w0 (wrapped 3 (errors_New "unreadable")) eq_refl)
    as [(_ & Hcalls & _)|(pre & x & p & f & e & k & _ & _ & _ & _ & _ & Hnd)].
  - discriminate Hcalls.
  - apply Hnd; [|apply list_elem_of_further, list_elem_of_here].
    repeat constructor; rewrite ?elem_of_cons, ?elem_of_nil; intuition discriminate.
Defined.

(** The failed visit of generator 2 at [R/Z] ends that run; generator 0 is
    stopped once. *)
Lemma VisitDir_failure_aborts_run_witness :
  CallVisitDir 2 "R/Z" false (Some (errors_New "unreadable")) ∈
    calls (GeneratorCollection_Generate methods Join (collection [0; 2] [])
             (StatDir fs) w0) /\
  stop_count 0 (calls (GeneratorCollection_Generate methods Join
                         (collection [0; 2] []) (StatDir fs) w0)) = 1.
Proof.
  assert (Hin : CallVisitDir 2 "R/Z" false (Some (errors_New "unreadable")) ∈
            calls (GeneratorCollection_Generate methods Join
                     (collection [0; 2] []) (StatDir fs) w0)).
  { do 7 apply list_elem_of_further. apply list_elem_of_here. }
  split; [exact Hin|].
  destruct (VisitDir_failure_aborts_run methods Join (collection [0; 2] [])
              (StatDir fs) w0 _ Hin eq_refl)
    as (pre & x & p & f & e & k & _ & _ & _ & _ & _ & _ & Hnd).
  apply Hnd; [|apply list_elem_of_here].
  repeat constructor; rewrite ?elem_of_cons, ?elem_of_nil; intuition discriminate.
Defined.


(** Generator 1 skips at [R/X]: the loop goes on to generator 0, and the
    walk of [R/X] returns no error. *)
Lemma SkipDir_excludes_below_witness :
  calls (range_generators methods "R/X" [1; 0] [] w0) !! 0 =
    Some (CallVisitDir 1 "R/X" false (Some SkipDir)) /\
  1 < length (calls (range_generators methods "R/X" [1; 0] [] w0)) /\
  result (directory_Generate methods (Some dirX) [1; 0] w0) = None.
Proof.
  split; [reflexivity|].
  destruct (SkipDir_excludes_below methods dirX [1; 0] w0 0 1 false eq_refl)
    as (_ & (Hnext & _ & Hnone) & _).
  split.
  - apply Hnext; [reflexivity|]. simpl. lia.
  - apply Hnone. repeat constructor.
Defined.

(** [R/X/Y] has no ruleset of its own, nor has [R/X]: it resolves to the
    rules of [R]. *)
Lemma Ignores_nearest_ruleset_witness :
  ignores dirY = None /\ Ignores dirY = Some rules.
Proof.
  split; [reflexivity|].
  apply (proj1 (proj2 (proj2 (Ignores_nearest_ruleset dirY)))).
  exists 2, root. split; [reflexivity|]. split; [reflexivity|].
  intros [|[|j]] b Hj Hb; [| |lia]; injection Hb as <-; reflexivity.
Defined.


(** The listing of the root fails: no generator is called. *)
Lemma Generate_fails_before_walk_witness :
  GeneratorCollection_Generate methods Join (collection [0; 1] [])
    (StatDir (MkFsDir IgnoreNotExist (Some (errors_New "denied")) [])) w0 =
    (Some (wrapped 2 (errors_New "denied")), w0, []).
Proof.
  apply (proj1 (proj2 (proj2
           (Generate_fails_before_walk methods Join (collection [0; 1] []) w0)))
           (MkFsDir IgnoreNotExist (Some (errors_New "denied")) []) None).
  reflexivity.
Defined.

End ExampleRun.

(* ===================================================================== *)
(** * Further properties of the tree builder *)

Section BuilderFacts.

Variable Join : string -> string -> string.

Lemma Ignores_congr a b :
  ignores a = ignores b -> Parent a = Parent b -> Ignores a = Ignores b.
Proof. intros Hi Hp. rewrite (Ignores_unfold a), (Ignores_unfold b), Hi, Hp. reflexivity. Qed.

Lemma ignored_by_congr a b path :
  ignores a = ignores b -> Parent a = Parent b ->
  ignored_by (Some a) path = ignored_by (Some b) path.
Proof. intros Hi Hp. unfold ignored_by. rewrite (Ignores_congr a b Hi Hp). reflexivity. Qed.

Lemma fs_errors_unfold ignoreFile readDirErr files :
  fs_errors (MkFsDir ignoreFile readDirErr files) =
    ignoreFile_errors ignoreFile ++ option_list readDirErr ++
    (subdirs files ≫= (fun entry => fs_errors entry.2)).
Proof.
  simpl. do 2 f_equal. unfold subdirs.
  induction files as [|[name [sub|]] files IH]; simpl; [reflexivity| |exact IH].
  f_equal. exact IH.
Qed.

(** The loop over the entries returns a node, or a wrapped error. *)
Lemma range_files_shape build node files : forall cs,
  (exists d, range_files build node files cs = (Some d, None)) \/
  (exists name sub child err,
     (name, sub) ∈ subdirs files /\ build name sub = (child, Some err) /\
     range_files build node files cs = (None, Some (WithStack err))).
Proof.
  induction files as [|[name [sub|]] files IH]; intros cs; simpl.
  - left. eauto.
  - destruct (build name sub) as [child [err|]] eqn:Hbuild.
    + right. exists name, sub, child, err. split; [|split; [exact Hbuild|reflexivity]].
      unfold subdirs. simpl. apply list_elem_of_here.
    + destruct (IH (cs ++ [child])) as [Hok|(n & s & c & e & Hin & Hb & Hr)];
        [left; exact Hok|right].
      exists n, s, c, e. split; [|split; assumption].
      unfold subdirs in *. simpl. apply list_elem_of_further. exact Hin.
  - destruct (IH cs) as [Hok|(n & s & c & e & Hin & Hb & Hr)];
      [left; exact Hok|right].
    exists n, s, c, e. split; [|split; assumption]. exact Hin.
Qed.

(** What [NewDirectory] returns: nothing when the path is ignored, and
    otherwise a node, or the wrapped error of loading the ignore file, of
    listing the directory, or of building a subdirectory. *)
Lemma NewDirectory_cases fs path parent :
  (ignored_by parent path = true /\
   NewDirectory Join fs path parent = (None, None)) \/
  (ignored_by parent path = false /\
   ((exists d, NewDirectory Join fs path parent = (Some d, None)) \/
    (exists err,
       NewDirectory Join fs path parent = (None, Some (WithStack err)) /\
       ((loadIgnores (fs_ignoreFile fs) None).2 = Some err \/
        fs_readDirErr_of fs = Some err \/
        exists name sub child,
          (name, sub) ∈ subdirs (fs_entries fs) /\
          NewDirectory Join sub (Join path name)
            (Some (Directory path parent []
                     (loadIgnores (fs_ignoreFile fs) None).1)) =
            (child, Some err))))).
Proof.
  destruct fs as [ign rd files]. simpl.
  destruct (ignored_by parent path); [left; split; reflexivity|right].
  split; [reflexivity|].
  destruct (loadIgnores ign None) as [rules [err|]] eqn:Hload; simpl.
  { right. exists err. split; [reflexivity|]. left. reflexivity. }
  destruct rd as [err|].
  { right. exists err. split; [reflexivity|]. right. left. reflexivity. }
  destruct (range_files_shape
              (fun name sub => NewDirectory Join sub (Join path name)
                                 (Some (Directory path parent [] rules)))
              (fun cs => Directory path parent cs rules) files [])
    as [[d Hd]|(name & sub & child & err & Hin & Hbuild & Hr)].
  - left. exists d. exact Hd.
  - right. exists err. split; [exact Hr|]. right. right.
    exists name, sub, child. split; assumption.
Qed.

(** X1.  [NewDirectory] returns nil and no error exactly when the resolved
    ruleset of the parent matches the path; it never returns a node
    together with an error; every error it returns is wrapped; and with no
    parent it returns a node or an error. *)
Theorem NewDirectory_nil_only_when_ignored (fs : FsDir) (path : string)
    (parent : option directory) :
  (NewDirectory Join fs path parent = (None, None) <->
   ignored_by parent path = true) /\
  (forall d err, NewDirectory Join fs path parent <> (Some d, Some err)) /\
  (forall x err, NewDirectory Join fs path parent = (x, Some err) ->
     x = None /\ exists cause, err = WithStack cause) /\
  ((exists d, NewDirectory Join fs path None = (Some d, None)) \/
   (exists err, NewDirectory Join fs path None = (None, Some err))).
Proof.
  split; [|split; [|split]].
  - destruct (NewDirectory_cases fs path parent)
      as [[Hi Hr]|[Hi [[d Hr]|(err & Hr & _)]]]; rewrite Hr, Hi;
      split; intros H; congruence.
  - intros d err.
    destruct (NewDirectory_cases fs path parent)
      as [[_ Hr]|[_ [[d' Hr]|(err' & Hr & _)]]]; rewrite Hr; congruence.
  - intros x err.
    destruct (NewDirectory_cases fs path parent)
      as [[_ Hr]|[_ [[d' Hr]|(err' & Hr & _)]]]; rewrite Hr; intros [= <- <-].
    split; [reflexivity|]. exists err'. reflexivity.
  - destruct (NewDirectory_cases fs path None)
      as [[Hi _]|[_ [[d Hr]|(err & Hr & _)]]]; [discriminate| |]; eauto.
Qed.

Lemma NewDirectory_error_from_fs fs : forall path parent x err,
  NewDirectory Join fs path parent = (x, Some err) ->
  exists cause k, cause ∈ fs_errors fs /\ err = wrapped (S k) cause.
Proof.
  induction fs as [ign rd files IH] using FsDir_entries_ind.
  intros path parent x err Hnew.
  destruct (NewDirectory_cases (MkFsDir ign rd files) path parent)
    as [[_ Hr]|[_ [[d Hr]|(e & Hr & Hwhy)]]]; rewrite Hr in Hnew;
    try discriminate.
  injection Hnew as <- <-. rewrite fs_errors_unfold. simpl in Hwhy.
  destruct Hwhy as [Hload|[Hrd|(name & sub & child & Hin & Hbuild)]].
  - destruct ign as [|e0|rules [e0|]]; simpl in Hload; try discriminate;
      injection Hload as <-; exists e0, 1;
      (split; [apply elem_of_app; left; apply list_elem_of_here|reflexivity]).
  - subst rd. exists e, 0. split; [|reflexivity].
    apply elem_of_app. right. apply elem_of_app. left. apply list_elem_of_here.
  - assert (Hsub : exists file, file ∈ files /\ file.2 = Some sub).
    { unfold subdirs in Hin. apply list_elem_of_omap in Hin as ([n o] & Hf & Ho).
      simpl in Ho. destruct o as [s|]; [|discriminate].
      injection Ho as <- <-. exists (n, Some s). split; [exact Hf|reflexivity]. }
    destruct Hsub as (file & Hfile & Hfsub).
    rewrite Forall_forall in IH.
    destruct (IH file Hfile sub Hfsub _ _ _ _ Hbuild) as (cause & k & Hc & ->).
    exists cause, (S k). split; [|reflexivity].
    apply elem_of_app. right. apply elem_of_app. right.
    apply list_elem_of_bind. exists (name, sub). split; [exact Hc|exact Hin].
Qed.

(** X2.  An error returned by [NewDirectory] is an error met in the tree,
    when loading an ignore file or listing a directory, under one wrapper
    or more, so that its cause is the cause of that error; no node is
    returned with it, and the path was not ignored. *)
Theorem NewDirectory_error_is_from_tree (fs : FsDir) (path : string)
    (parent : option directory) (x : option directory) (err : error) :
  NewDirectory Join fs path parent = (x, Some err) ->
  x = None /\ ignored_by parent path = false /\
  exists cause k,
    cause ∈ fs_errors fs /\ err = wrapped (S k) cause /\
    Cause err = Cause cause.
Proof.
  intros Hnew.
  destruct (NewDirectory_error_from_fs fs path parent x err Hnew)
    as (cause & k & Hc & Herr).
  destruct (NewDirectory_cases fs path parent)
    as [[_ Hr]|[Hi [[d Hr]|(e & Hr & _)]]]; rewrite Hr in Hnew;
    try discriminate.
  injection Hnew as <- _. split; [reflexivity|]. split; [exact Hi|].
  exists cause, k. split; [exact Hc|]. split; [exact Herr|].
  rewrite Herr. apply Cause_wrapped.
Qed.

(** X3.  On a tree in which no ignore file fails to load and no listing
    fails, [NewDirectory] returns no error: it returns nil when the path is
    ignored and a node otherwise. *)
Theorem NewDirectory_succeeds_on_sound_tree (fs : FsDir) (path : string)
    (parent : option directory) :
  fs_errors fs = [] ->
  (NewDirectory Join fs path parent).2 = None /\
  (ignored_by parent path = false ->
   exists d, NewDirectory Join fs path parent = (Some d, None)).
Proof.
  intros Hsound.
  assert (Hnone : forall x err, NewDirectory Join fs path parent <> (x, Some err)).
  { intros x err Hnew.
    destruct (NewDirectory_error_from_fs fs path parent x err Hnew)
      as (cause & k & Hc & _).
    rewrite Hsound in Hc. inversion Hc. }
  destruct (NewDirectory_cases fs path parent)
    as [[Hi Hr]|[Hi [[d Hr]|(e & Hr & _)]]].
  - rewrite Hr. split; [reflexivity|]. congruence.
  - rewrite Hr. split; [reflexivity|]. eauto.
  - exfalso. exact (Hnone _ _ Hr).
Qed.

(** X4.  The node [NewDirectory] returns has the path and the parent it
    was given and the ruleset loaded from its ignore file.  It has one
    child slot for every subdirectory of the listing, in listing order, and
    none for the other entries.  The slot of a subdirectory is nil exactly
    when the resolved ruleset of the node matches the joined path;
    otherwise it holds a node with that path, which resolves to its own
    ruleset when it has one and to the ruleset of the node above
    otherwise. *)
Theorem NewDirectory_children_slots (fs : FsDir) (path : string)
    (parent : option directory) (d : directory) :
  NewDirectory Join fs path parent = (Some d, None) ->
  Path d = path /\ Parent d = parent /\
  ignores d = (loadIgnores (fs_ignoreFile fs) None).1 /\
  length (children d) = length (subdirs (fs_entries fs)) /\
  forall k name sub,
    subdirs (fs_entries fs) !! k = Some (name, sub) ->
    exists slot,
      children d !! k = Some slot /\
      match slot with
      | None => ignored_by (Some d) (Join path name) = true
      | Some c =>
          ignored_by (Some d) (Join path name) = false /\
          Path c = Join path name /\
          Path <$> Parent c = Some path /\
          Ignores c =
            match ignores c with
            | Some r => Some r
            | None => Ignores d
            end
      end.
Proof.
  intros Hnew.
  destruct (NewDirectory_node Join fs path parent d Hnew)
    as (_ & Hpath & Hparent & Hign & Hslots).
  split; [exact Hpath|]. split; [exact Hparent|]. split; [exact Hign|].
  split; [symmetry; eapply Forall2_length; exact Hslots|].
  intros k name sub Hk.
  destruct (Forall2_lookup_l _ _ _ _ _ Hslots Hk) as (slot & Hslot & Hbuild).
  simpl in Hbuild. exists slot. split; [exact Hslot|].
  set (d0 := Directory path parent [] (ignores d)) in *.
  assert (Hsame : forall p, ignored_by (Some d0) p = ignored_by (Some d) p).
  { intros p. apply ignored_by_congr; [reflexivity|]. simpl. congruence. }
  assert (HI : Ignores d0 = Ignores d).
  { apply Ignores_congr; [reflexivity|]. simpl. congruence. }
  destruct slot as [c|].
  - destruct (NewDirectory_node Join sub (Join path name) (Some d0) c Hbuild)
      as (Hnot & Hcp & Hcparent & _ & _).
    rewrite <- Hsame. split; [exact Hnot|]. split; [exact Hcp|].
    split; [rewrite Hcparent; reflexivity|].
    rewrite (Ignores_unfold c), Hcparent, HI. reflexivity.
  - rewrite <- Hsame.
    destruct (NewDirectory_cases sub (Join path name) (Some d0))
      as [[Hi _]|[_ [[c Hr]|(e & Hr & _)]]]; [exact Hi| |];
      rewrite Hr in Hbuild; discriminate.
Qed.

(** X5.  How the ignore file of a directory decides the rules of its node:
    when the file does not exist the node has no ruleset of its own and
    resolves to what its parent resolves to (nil with no parent); when the
    file compiles to a ruleset the node resolves to that ruleset alone,
    whatever the rules above it are. *)
Theorem ignore_file_overrides_or_inherits (fs : FsDir) (path : string)
    (parent : option directory) (d : directory) :
  NewDirectory Join fs path parent = (Some d, None) ->
  match fs_ignoreFile fs with
  | IgnoreNotExist =>
      ignores d = None /\
      Ignores d = match parent with Some p => Ignores p | None => None end
  | IgnoreStatFails _ => False
  | IgnoreCompiled (Some r) err => err = None /\ Ignores d = Some r
  | IgnoreCompiled None err =>
      err = None /\
      Ignores d = match parent with Some p => Ignores p | None => None end
  end.
Proof.
  intros Hnew.
  destruct (NewDirectory_node Join fs path parent d Hnew)
    as (_ & _ & Hparent & Hign & _).
  assert (Hload : (loadIgnores (fs_ignoreFile fs) None).2 = None).
  { destruct fs as [ign rd files]. simpl in Hnew |- *.
    destruct (ignored_by parent path); [discriminate|].
    destruct (loadIgnores ign None) as [rules [e|]]; [discriminate|reflexivity]. }
  rewrite (Ignores_unfold d), Hign, Hparent.
  destruct (fs_ignoreFile fs) as [|e|[r|] [e|]]; simpl in *;
    try discriminate; auto.
Qed.

End BuilderFacts.

(* ===================================================================== *)
(** * Further properties of the walk and of the run *)

Section MoreWalkFacts.

Context {World : Type}.
Variable methods : Generator -> GeneratorImpl World.


Lemma loop_unclaimed path generators :
  (forall x, x ∈ generators ->
     forall p (w : World), (VisitDir (methods x) p w).1 = (false, None)) ->
  forall cg0 (w : World),
    result (range_generators methods path generators cg0 w) =
      inr (cg0 ++ generators) /\
    calls (range_generators methods path generators cg0 w) =
      (fun x => CallVisitDir x path false None) <$> generators.
Proof.
  induction generators as [|g rest IH]; intros Hquiet cg0 w.
  - simpl. rewrite app_nil_r. split; reflexivity.
  - rewrite range_generators_cons.
    pose proof (Hquiet g (list_elem_of_here _ _) path w) as Hg.
    destruct (VisitDir (methods g) path w) as [[found err] w1].
    simpl in Hg. injection Hg as -> ->. cbv beta iota zeta.
    destruct (IH (fun x Hx => Hquiet x (list_elem_of_further _ _ _ Hx))
                (cg0 ++ [g]) w1) as [Hr Hc].
    destruct (range_generators methods path rest (cg0 ++ [g]) w1)
      as [[r w2] cs]. run_simpl. subst r cs.
    rewrite <- app_assoc. split; reflexivity.
Qed.

Lemma range_children_unclaimed Generate generators cs :
  Forall (fun child => forall w : World,
            result (Generate child generators w) = None /\
            calls (Generate child generators w) = all_visits generators child)
         cs ->
  forall w : World,
    result (range_children Generate generators cs w) = None /\
    calls (range_children Generate generators cs w) =
      cs ≫= all_visits generators.
Proof.
  induction 1 as [|child cs Hchild _ IH]; intros w; [split; reflexivity|].
  rewrite range_children_cons. destruct (Hchild w) as [Hr Hc].
  destruct (Generate child generators w) as [[r w1] cs1]. run_simpl. subst r cs1.
  destruct (IH w1) as [Hr2 Hc2].
  destruct (range_children Generate generators cs w1) as [[r2 w2] cs2].
  run_simpl. subst r2 cs2. split; reflexivity.
Qed.

(** X7.  When the generators of the list answer [false] and no error to
    every call of [VisitDir], the walk succeeds and calls every generator
    at every node of the tree: node after node, each node before the nodes
    below it and the children in their order, and at each node the
    generators in the order of the list. *)
Theorem walk_unclaimed_visits_all (d : option directory)
    (generators : list Generator) (w : World) :
  (forall x, x ∈ generators ->
     forall p (w : World), (VisitDir (methods x) p w).1 = (false, None)) ->
  result (directory_Generate methods d generators w) = None /\
  calls (directory_Generate methods d generators w) =
    all_visits generators d.
Proof.
  intros Hquiet. destruct d as [d|]; [|split; reflexivity].
  revert w. induction d as [d IH] using directory_children_ind. intros w.
  rewrite Generate_from_loop. cbv zeta.
  destruct (loop_unclaimed (Path d) generators Hquiet [] w) as [Hr Hc].
  rewrite Hr, Hc. simpl app.
  destruct (range_children_unclaimed (directory_Generate methods) generators
              (children d)) with (w := store (range_generators methods (Path d) generators [] w))
    as [Hr2 Hc2].
  { eapply Forall_impl; [exact IH|]. simpl. intros [c|] Hchild w0.
    - apply (Hchild c eq_refl).
    - split; reflexivity. }
  run_simpl. split; [exact Hr2|]. rewrite Hc2.
  unfold all_visits. simpl nodes_of. rewrite nodes_unfold, bind_cons.
  f_equal. clear. induction (children d) as [|c cs IHcs]; [reflexivity|].
  rewrite !bind_cons, bind_app, IHcs. reflexivity.
Qed.

Lemma length_kept (cs : list Call) : length (omap kept cs) <= length cs.
Proof.
  induction cs as [|c cs IH]; [reflexivity|].
  change (omap kept (c :: cs)) with
    (match kept c with Some x => x :: omap kept cs | None => omap kept cs end).
  destruct (kept c); simpl; lia.
Qed.

Lemma range_children_calls_bound Generate generators cs :
  Forall (fun child => forall w : World,
            length (calls (Generate child generators w)) <=
              length generators * length (nodes_of child)) cs ->
  forall w : World,
    length (calls (range_children Generate generators cs w)) <=
      length generators * length (cs ≫= nodes_of).
Proof.
  induction 1 as [|child cs Hchild _ IH]; intros w; [simpl; lia|].
  rewrite range_children_cons, bind_cons, length_app.
  specialize (Hchild w).
  destruct (Generate child generators w) as [[[e|] w1] cs1]; run_simpl; [lia|].
  specialize (IH w1).
  destruct (range_children Generate generators cs w1) as [[r2 w2] cs2].
  run_simpl. rewrite length_app. lia.
Qed.

(** X8.  A walk calls [VisitDir] at most once for every generator of its
    list at every node of the tree: the number of calls is at most the
    number of generators times the number of nodes. *)
Theorem walk_calls_bound (d : option directory) (generators : list Generator)
    (w : World) :
  length (calls (directory_Generate methods d generators w)) <=
    length generators * length (nodes_of d).
Proof.
  destruct d as [d|]; [|simpl; lia].
  revert generators w.
  induction d as [d IH] using directory_children_ind. intros generators w.
  rewrite Generate_from_loop. cbv zeta.
  destruct (loop_spec methods (Path d) generators [] w) as (Hvis & Hres & _).
  assert (Hlen : length (calls (range_generators methods (Path d) generators [] w))
                 <= length generators).
  { apply Forall2_length in Hvis. rewrite length_take in Hvis. lia. }
  simpl nodes_of. rewrite nodes_unfold. simpl length.
  destruct (result (range_generators methods (Path d) generators [] w))
    as [e|cg] eqn:Hr; run_simpl; [lia|].
  specialize (Hres cg eq_refl). simpl in Hres.
  assert (Hcg : length cg <= length generators).
  { subst cg. etransitivity; [apply length_kept|exact Hlen]. }
  rewrite length_app.
  pose proof (range_children_calls_bound (directory_Generate methods) cg
                (children d)) as Hbelow.
  specialize (Hbelow ltac:(eapply Forall_impl; [exact IH|];
                           simpl; intros [c|] Hc w0;
                           [apply (Hc c eq_refl)|simpl; lia])).
  specialize (Hbelow (store (range_generators methods (Path d) generators [] w))).
  run_simpl. nia.
Qed.

Variable Join : string -> string -> string.

(** X9.  When the root path is a directory and the tree is built, the
    calls of a run are, whatever the walk returns: [StartWalk] with the
    root path on every configured generator, in the configured order;
    then calls of [VisitDir] only, on configured generators; then
    [StopWalk] on every configured generator, in the configured order.
    The run returns nil exactly when no visit failed, and the store it
    leaves is the one these calls made. *)
Theorem Generate_brackets_walk (g : GeneratorCollection) (fs : FsDir)
    (dir : option directory) (w : World) :
  NewDirectory Join fs (RootPath g) None = (dir, None) ->
  let run := GeneratorCollection_Generate methods Join g (StatDir fs) w in
  exists visited,
    calls run =
      ((fun x => CallStartWalk x (RootPath g)) <$> Generators g) ++
      visited ++ (CallStopWalk <$> Generators g) /\
    Forall (fun c => is_visit c = true /\ call_generator c ∈ Generators g)
           visited /\
    (result run = None <-> Forall (fun c => failed c = false) visited) /\
    store run = replay methods (calls run) w.
Proof.
  intros Hdir run.
  destruct (Generate_walk_cases methods Join g fs dir w Hdir)
    as (visited & Hcalls & Hin & _ & Hcases).
  fold run in Hcalls, Hcases.
  exists visited. split; [exact Hcalls|]. split; [exact Hin|]. split.
  - destruct Hcases as [[Hnone Hnf]|(pre & x & p & f & e & k & -> & Hne & _ & Hr)].
    + split; auto.
    + rewrite Hr. split; [discriminate|]. intros Hnf.
      apply Forall_app in Hnf as [_ Hlast]. rewrite Forall_singleton in Hlast.
      rewrite failed_visit in Hlast by exact Hne. discriminate.
  - pose proof (Generate_walk_shape methods Join g fs dir w Hdir) as Hshape.
    cbv zeta in Hshape. fold run in Hshape.
    destruct (directory_Generate_ok methods dir (Generators g)
                (replay methods
                   ((fun x => CallStartWalk x (RootPath g)) <$> Generators g) w))
      as (_ & _ & Hw).
    rewrite Hshape. unfold store at 1, calls at 1. simpl.
    rewrite !replay_app, <- Hw. reflexivity.
Qed.

(** X10.  [Generate] returns nil exactly when the root path is a directory,
    the tree is built without error, and no call of [VisitDir] returned an
    error other than [filepath.SkipDir]. *)
Theorem Generate_succeeds_iff (g : GeneratorCollection) (root : RootStat)
    (w : World) :
  let run := GeneratorCollection_Generate methods Join g root w in
  result run = None <->
  (exists fs dir,
     root = StatDir fs /\
     NewDirectory Join fs (RootPath g) None = (dir, None)) /\
  Forall (fun c => failed c = false) (calls run).
Proof.
  intros run. split.
  - intros Hnone. destruct root as [err| |fs]; try discriminate.
    destruct (NewDirectory Join fs (RootPath g) None) as [dir [err|]] eqn:Hdir.
    { subst run. unfold GeneratorCollection_Generate in Hnone.
      rewrite Hdir in Hnone. discriminate. }
    split; [eauto|].
    destruct (Generate_walk_cases methods Join g fs dir w Hdir)
      as (visited & Hcalls & _ & _ & Hcases).
    fold run in Hcalls, Hcases. rewrite Hcalls.
    destruct Hcases as [[_ Hnf]|(pre & x & p & f & e & k & _ & _ & _ & Hr)];
      [|congruence].
    apply Forall_app. split; [|apply Forall_app; split; [exact Hnf|]];
      apply Forall_fmap, Forall_true; reflexivity.
  - intros [(fs & dir & -> & Hdir) Hnf].
    destruct (Generate_walk_cases methods Join g fs dir w Hdir)
      as (visited & Hcalls & _ & _ & Hcases).
    fold run in Hcalls, Hcases.
    destruct Hcases as [[Hnone _]|(pre & x & p & f & e & k & -> & Hne & _ & _)];
      [exact Hnone|exfalso].
    rewrite Hcalls in Hnf. apply Forall_app in Hnf as [_ Hnf].
    apply Forall_app in Hnf as [Hnf _]. apply Forall_app in Hnf as [_ Hlast].
    rewrite Forall_singleton in Hlast.
    rewrite failed_visit in Hlast by exact Hne. discriminate.
Qed.

End MoreWalkFacts.

(* ===================================================================== *)
(** * Further properties of the aggregation *)

Section MoreAggregateFacts.

Context {World : Type} {sorter : Sorter}.
Variable methods : Generator -> GeneratorImpl World.

Lemma Services_eq (g : GeneratorCollection) (w : World) :
  Services methods g w =
    sort_Sort ByName_Less
      (selected services.Name (Targets g)
         (Generators g ≫= contribution methods ServiceGenerator w)).
Proof.
  unfold Services, selected.
  pose proof (gather_spec methods ServiceGenerator services.Name w
                (Generators g) [] ∅) as Hgather.
  destruct (foldl _ ([], ∅) (Generators g)) as [out m]. simpl in Hgather.
  subst out. destruct (Targets g) as [|t ts]; [reflexivity|].
  change (Nat.eqb (length (t :: ts)) 0) with false. cbv iota.
  rewrite (keep_targets_spec services.Name (t :: ts) _ []).
  rewrite decide_False by discriminate. reflexivity.
Qed.

Lemma Groups_eq (g : GeneratorCollection) (w : World) :
  Groups methods g w =
    sort_Sort ByGroupName_Less
      (selected services.GroupName (Targets g)
         (Generators g ≫= contribution methods GroupGenerator w)).
Proof.
  unfold Groups, selected.
  pose proof (gather_spec methods GroupGenerator services.GroupName w
                (Generators g) [] ∅) as Hgather.
  destruct (foldl _ ([], ∅) (Generators g)) as [out m]. simpl in Hgather.
  subst out. destruct (Targets g) as [|t ts]; [reflexivity|].
  change (Nat.eqb (length (t :: ts)) 0) with false. cbv iota.
  rewrite (keep_targets_spec services.GroupName (t :: ts) _ []).
  rewrite decide_False by discriminate. reflexivity.
Qed.

Lemma Imports_eq (g : GeneratorCollection) (w : World) :
  Imports methods g w =
    Generators g ≫= contribution methods ImportGenerator w.
Proof. unfold Imports. apply (imports_loop_spec methods w (Generators g) []). Qed.

Lemma selected_targets_as_set {A : Type} (name : A -> string)
    (ts ts' : list string) (records : list A) :
  ts <> [] -> ts' <> [] -> (forall t, t ∈ ts <-> t ∈ ts') ->
  selected name ts records = selected name ts' records.
Proof.
  intros Hne Hne' Hsame. unfold selected.
  rewrite !decide_False by assumption.
  apply list_filter_iff. intros r. apply Hsame.
Qed.

(** X11.  Only the set of the targets counts: two allow-lists that are not
    empty and hold the same names, in whatever order and however often,
    give the same [Services] and the same [Groups]. *)
Theorem targets_count_as_a_set (generators : list Generator) (path : string)
    (ts ts' : list string) (w : World) :
  ts <> [] -> ts' <> [] -> (forall t, t ∈ ts <-> t ∈ ts') ->
  Services methods
    {| Generators := generators; RootPath := path; Targets := ts |} w =
  Services methods
    {| Generators := generators; RootPath := path; Targets := ts' |} w /\
  Groups methods
    {| Generators := generators; RootPath := path; Targets := ts |} w =
  Groups methods
    {| Generators := generators; RootPath := path; Targets := ts' |} w.
Proof.
  intros Hne Hne' Hsame. rewrite !Services_eq, !Groups_eq. simpl.
  rewrite (selected_targets_as_set services.Name ts ts') by assumption.
  rewrite (selected_targets_as_set services.GroupName ts ts') by assumption.
  split; reflexivity.
Qed.

Lemma selected_submseteq {A : Type} (name : A -> string) (ts : list string)
    (records : list A) :
  selected name ts records ⊆+ records /\
  (ts <> [] -> Forall (fun r => name r ∈ ts) (selected name ts records)).
Proof.
  unfold selected. destruct (decide (ts = [])) as [->|Hne].
  - split; [reflexivity|]. congruence.
  - split; [apply sublist_submseteq, sublist_filter|]. intros _.
    apply Forall_forall. intros r Hr. apply list_elem_of_filter in Hr as [Hr _].
    exact Hr.
Qed.

(** X12.  An allow-list only removes records: what [Services] and [Groups]
    return with targets is, with multiplicity, among what they return with
    none, and every record returned with targets has a target as name. *)
Theorem targets_only_remove (generators : list Generator) (path : string)
    (ts : list string) (w : World) :
  let with_targets :=
    {| Generators := generators; RootPath := path; Targets := ts |} in
  let without :=
    {| Generators := generators; RootPath := path; Targets := [] |} in
  (Services methods with_targets w ⊆+ Services methods without w /\
   Groups methods with_targets w ⊆+ Groups methods without w) /\
  (ts <> [] ->
   Forall (fun s => services.Name s ∈ ts) (Services methods with_targets w) /\
   Forall (fun s => services.GroupName s ∈ ts) (Groups methods with_targets w)).
Proof.
  intros with_targets without. subst with_targets without.
  rewrite !Services_eq, !Groups_eq. simpl.
  rewrite !sort_Sort_perm.
  split; [split|intros Hne; split].
  - apply selected_submseteq.
  - apply selected_submseteq.
  - apply selected_submseteq. exact Hne.
  - apply selected_submseteq. exact Hne.
Qed.

Lemma contribution_recorded_error {A : Type}
    (cap : GeneratorImpl World -> option (World -> list A)) (w : World) x :
  Err (methods x) w <> None -> contribution methods cap w x = [].
Proof.
  intros Herr. unfold contribution. destruct (cap (methods x)); [|reflexivity].
  rewrite decide_False by exact Herr. reflexivity.
Qed.

Lemma bind_without {A : Type} (f : Generator -> list A) l1 x l2 :
  f x = [] -> (l1 ++ x :: l2) ≫= f = (l1 ++ l2) ≫= f.
Proof. intros Hx. rewrite !bind_app, bind_cons, Hx. reflexivity. Qed.

(** X13.  A generator with a recorded error counts for nothing: [Services],
    [Groups] and [Imports] return what they return when it is taken out of
    the list of generators. *)
Theorem recorded_error_excludes_generator (l1 l2 : list Generator)
    (x : Generator) (path : string) (ts : list string) (w : World) :
  Err (methods x) w <> None ->
  let listed :=
    {| Generators := l1 ++ x :: l2; RootPath := path; Targets := ts |} in
  let unlisted :=
    {| Generators := l1 ++ l2; RootPath := path; Targets := ts |} in
  Services methods listed w = Services methods unlisted w /\
  Groups methods listed w = Groups methods unlisted w /\
  Imports methods listed w = Imports methods unlisted w.
Proof.
  intros Herr listed unlisted. subst listed unlisted.
  rewrite !Services_eq, !Groups_eq, !Imports_eq. simpl.
  rewrite !bind_without by (apply contribution_recorded_error; exact Herr).
  repeat split; reflexivity.
Qed.

Lemma selected_app {A : Type} (name : A -> string) (ts : list string)
    (l k : list A) :
  selected name ts (l ++ k) = selected name ts l ++ selected name ts k.
Proof.
  unfold selected. destruct (decide (ts = [])); [reflexivity|].
  apply filter_app.
Qed.

(** X14.  The aggregates of a list of generators put together from two
    lists are those of the two lists put together: [Imports] is the
    concatenation, [Services] and [Groups] a rearrangement of it. *)
Theorem aggregates_of_appended_lists (l1 l2 : list Generator) (path : string)
    (ts : list string) (w : World) :
  let collection := fun l => {| Generators := l; RootPath := path; Targets := ts |} in
  Imports methods (collection (l1 ++ l2)) w =
    Imports methods (collection l1) w ++ Imports methods (collection l2) w /\
  Services methods (collection (l1 ++ l2)) w ≡ₚ
    Services methods (collection l1) w ++ Services methods (collection l2) w /\
  Groups methods (collection (l1 ++ l2)) w ≡ₚ
    Groups methods (collection l1) w ++ Groups methods (collection l2) w.
Proof.
  intros collection. subst collection. cbv beta.
  rewrite !Services_eq, !Groups_eq, !Imports_eq. simpl.
  rewrite !bind_app, !selected_app, !sort_Sort_perm.
  repeat split; reflexivity.
Qed.

(** X15.  With no generators, [Services], [Groups] and [Imports] are
    empty, whatever the targets. *)
Theorem aggregates_of_no_generators (path : string) (ts : list string)
    (w : World) :
  let none := {| Generators := []; RootPath := path; Targets := ts |} in
  Services methods none w = [] /\ Groups methods none w = [] /\
  Imports methods none w = [].
Proof.
  intros none. subst none. rewrite Services_eq, Groups_eq, Imports_eq. simpl.
  assert (Hs : forall A (name : A -> string), selected name ts [] = []).
  { intros A name. unfold selected. destruct (decide (ts = [])); reflexivity. }
  rewrite !Hs. repeat split; try reflexivity;
    apply Permutation_nil_r, sort_Sort_perm.
Qed.

End MoreAggregateFacts.

(* ===================================================================== *)
(** * Further properties of the sorted slices and of [generatorBase] *)

Lemma ltb_irrefl (a : string) : String.ltb a a = false.
Proof.
  unfold String.ltb.
  replace (String.compare a a) with Eq; [reflexivity|].
  symmetry. apply (OrderedTypeEx.String_as_OT.cmp_eq a a). reflexivity.
Qed.

Lemma ltb_trans (a b c : string) :
  String.ltb a b = true -> String.ltb b c = true -> String.ltb a c = true.
Proof.
  rewrite !ltb_lexicographic. apply OrderedTypeEx.String_as_OT.lt_trans.
Qed.

Lemma ltb_incomparable (a b : string) :
  String.ltb a b = false /\ String.ltb b a = false <-> a = b.
Proof.
  split.
  - intros [Hab Hba]. apply String.leb_antisym; apply ltb_false_leb; assumption.
  - intros ->. split; apply ltb_irrefl.
Qed.

Lemma less_by_name_order {A : Type} (name : A -> string) :
  let less := fun a b => String.ltb (name a) (name b) in
  (forall a, less a a = false) /\
  (forall a b, less a b = true -> less b a = false) /\
  (forall a b c, less a b = true -> less b c = true -> less a c = true) /\
  (forall a b, less a b = false /\ less b a = false <-> name a = name b).
Proof.
  intros less. subst less. cbv beta. split; [|split; [|split]].
  - intros a. apply ltb_irrefl.
  - intros a b. apply (proj1 (strict_weak_by_name name)).
  - intros a b c. apply ltb_trans.
  - intros a b. apply ltb_incomparable.
Qed.

(** X16.  [ByName.Less] and [ByGroupName.Less] order the records as
    [sort.Sort] needs: no record is less than itself, of two records at
    most one is less than the other, less is transitive, and two records
    are unordered exactly when they have the same name. *)
Theorem Less_is_a_strict_weak_order :
  ((forall a, ByName_Less a a = false) /\
   (forall a b, ByName_Less a b = true -> ByName_Less b a = false) /\
   (forall a b c, ByName_Less a b = true -> ByName_Less b c = true ->
                  ByName_Less a c = true) /\
   (forall a b, ByName_Less a b = false /\ ByName_Less b a = false <->
                services.Name a = services.Name b)) /\
  ((forall a, ByGroupName_Less a a = false) /\
   (forall a b, ByGroupName_Less a b = true -> ByGroupName_Less b a = false) /\
   (forall a b c, ByGroupName_Less a b = true -> ByGroupName_Less b c = true ->
                  ByGroupName_Less a c = true) /\
   (forall a b, ByGroupName_Less a b = false /\ ByGroupName_Less b a = false <->
                services.GroupName a = services.GroupName b)).
Proof.
  split.
  - apply (less_by_name_order services.Name).
  - apply (less_by_name_order services.GroupName).
Qed.

Lemma insert_moves {A : Type} (s : list A) : forall j x y,
  s !! j = Some y -> y :: <[j := x]> s ≡ₚ x :: s.
Proof.
  induction s as [|b t IH]; intros j x y Hj; [discriminate|].
  destruct j as [|j]; simpl in *.
  - injection Hj as ->. apply perm_swap.
  - rewrite (perm_swap b y). rewrite (IH j x y Hj). apply perm_swap.
Qed.

Lemma swap_Permutation {A : Type} (s : list A) : forall i j si sj,
  s !! i = Some si -> s !! j = Some sj ->
  <[j := si]> (<[i := sj]> s) ≡ₚ s.
Proof.
  induction s as [|a t IH]; intros i j si sj Hi Hj; [discriminate|].
  destruct i as [|i], j as [|j]; simpl in *.
  - injection Hi as ->. reflexivity.
  - injection Hi as ->. apply insert_moves. exact Hj.
  - injection Hj as ->. apply insert_moves. exact Hi.
  - apply perm_skip. apply (IH i j si sj); assumption.
Qed.

(** What the assignment [s[i], s[j] = s[j], s[i]] does to a slice. *)
Lemma swap_spec {A : Type} (s : list A) (i j : nat) :
  let swap :=
    match s !! j, s !! i with
    | Some sj, Some si => Some (<[j := si]> (<[i := sj]> s))
    | _, _ => None
    end in
  (swap = None <-> ~ (i < length s /\ j < length s)) /\
  forall s', swap = Some s' ->
    s' ≡ₚ s /\ length s' = length s /\
    s' !! i = s !! j /\ s' !! j = s !! i /\
    (forall k, k <> i -> k <> j -> s' !! k = s !! k) /\
    match s' !! j, s' !! i with
    | Some sj, Some si => Some (<[j := si]> (<[i := sj]> s'))
    | _, _ => None
    end = Some s.
Proof.
  intros swap. subst swap. split.
  - destruct (s !! j) as [sj|] eqn:Hj, (s !! i) as [si|] eqn:Hi.
    + split; [discriminate|]. intros H. exfalso. apply H.
      split; eapply lookup_lt_Some; eassumption.
    + split; [intros _|reflexivity]. apply lookup_ge_None in Hi. lia.
    + split; [intros _|reflexivity]. apply lookup_ge_None in Hj. lia.
    + split; [intros _|reflexivity]. apply lookup_ge_None in Hj. lia.
  - intros s' Hs'.
    destruct (s !! j) as [sj|] eqn:Hj; [|discriminate].
    destruct (s !! i) as [si|] eqn:Hi; [|discriminate].
    injection Hs' as <-.
    pose proof (lookup_lt_Some _ _ _ Hi) as Hil.
    pose proof (lookup_lt_Some _ _ _ Hj) as Hjl.
    assert (Hat_j : <[j := si]> (<[i := sj]> s) !! j = Some si).
    { apply list_lookup_insert_eq. rewrite length_insert. exact Hjl. }
    assert (Hat_i : <[j := si]> (<[i := sj]> s) !! i = Some sj).
    { destruct (decide (i = j)) as [->|Hne].
      - rewrite Hat_j. congruence.
      - rewrite list_lookup_insert_ne by congruence.
        apply list_lookup_insert_eq. exact Hil. }
    split; [apply (swap_Permutation s i j si sj Hi Hj)|].
    split; [rewrite !length_insert; reflexivity|].
    split; [exact Hat_i|]. split; [exact Hat_j|]. split.
    + intros k Hki Hkj. rewrite !list_lookup_insert_ne by congruence. reflexivity.
    + rewrite Hat_j, Hat_i. f_equal. apply list_eq. intros k.
      destruct (decide (k = j)) as [->|Hkj].
      * rewrite list_lookup_insert_eq by (rewrite !length_insert; exact Hjl).
        symmetry. exact Hj.
      * rewrite list_lookup_insert_ne by congruence.
        destruct (decide (k = i)) as [->|Hki].
        -- rewrite list_lookup_insert_eq by (rewrite !length_insert; exact Hil).
           symmetry. exact Hi.
        -- rewrite !list_lookup_insert_ne by congruence. reflexivity.
Qed.

(** X17.  [ByName.Swap] and [ByGroupName.Swap] panic exactly when an index
    is out of range.  Otherwise the slice keeps its length and its
    elements: the elements at [i] and [j] have changed places, the others
    are where they were, and a second [Swap] of the same indices restores
    the slice. *)
Theorem Swap_exchanges_two_elements :
  (forall s i j,
     (ByName_Swap s i j = None <->
      ~ (i < ByName_Len s /\ j < ByName_Len s)) /\
     forall s', ByName_Swap s i j = Some s' ->
       s' ≡ₚ s /\ ByName_Len s' = ByName_Len s /\
       s' !! i = s !! j /\ s' !! j = s !! i /\
       (forall k, k <> i -> k <> j -> s' !! k = s !! k) /\
       ByName_Swap s' i j = Some s) /\
  (forall s i j,
     (ByGroupName_Swap s i j = None <->
      ~ (i < ByGroupName_Len s /\ j < ByGroupName_Len s)) /\
     forall s', ByGroupName_Swap s i j = Some s' ->
       s' ≡ₚ s /\ ByGroupName_Len s' = ByGroupName_Len s /\
       s' !! i = s !! j /\ s' !! j = s !! i /\
       (forall k, k <> i -> k <> j -> s' !! k = s !! k) /\
       ByGroupName_Swap s' i j = Some s).
Proof.
  split; intros s i j.
  - apply (swap_spec s i j).
  - apply (swap_spec s i j).
Qed.

(** X18.  [ByName.Less] and [ByGroupName.Less] at two indices panic
    exactly when an index is out of range, and otherwise compare the names
    of the two elements; so after a [Swap] of [i] and [j], [Less(i, j)] is
    what [Less(j, i)] was. *)
Theorem Less_at_compares_names :
  (forall s i j,
     (ByName_Less_at s i j = None <->
      ~ (i < ByName_Len s /\ j < ByName_Len s)) /\
     (forall si sj, s !! i = Some si -> s !! j = Some sj ->
        ByName_Less_at s i j = Some (ByName_Less si sj)) /\
     (forall s', ByName_Swap s i j = Some s' ->
        ByName_Less_at s' i j = ByName_Less_at s j i)) /\
  (forall s i j,
     (ByGroupName_Less_at s i j = None <->
      ~ (i < ByGroupName_Len s /\ j < ByGroupName_Len s)) /\
     (forall si sj, s !! i = Some si -> s !! j = Some sj ->
        ByGroupName_Less_at s i j = Some (ByGroupName_Less si sj)) /\
     (forall s', ByGroupName_Swap s i j = Some s' ->
        ByGroupName_Less_at s' i j = ByGroupName_Less_at s j i)).
Proof.
  split; intros s i j.
  - split; [|split].
    + unfold ByName_Less_at, ByName_Len.
      destruct (s !! i) as [si|] eqn:Hi, (s !! j) as [sj|] eqn:Hj.
      * split; [discriminate|]. intros H. exfalso. apply H.
        split; eapply lookup_lt_Some; eassumption.
      * split; [intros _|reflexivity]. apply lookup_ge_None in Hj. lia.
      * split; [intros _|reflexivity]. apply lookup_ge_None in Hi. lia.
      * split; [intros _|reflexivity]. apply lookup_ge_None in Hi. lia.
    + intros si sj Hi Hj. unfold ByName_Less_at. rewrite Hi, Hj. reflexivity.
    + intros s' Hs'.
      destruct (swap_spec s i j) as [_ Hswap].
      destruct (Hswap s' Hs') as (_ & _ & Hi & Hj & _).
      unfold ByName_Less_at. rewrite Hi, Hj. reflexivity.
  - split; [|split].
    + unfold ByGroupName_Less_at, ByGroupName_Len.
      destruct (s !! i) as [si|] eqn:Hi, (s !! j) as [sj|] eqn:Hj.
      * split; [discriminate|]. intros H. exfalso. apply H.
        split; eapply lookup_lt_Some; eassumption.
      * split; [intros _|reflexivity]. apply lookup_ge_None in Hj. lia.
      * split; [intros _|reflexivity]. apply lookup_ge_None in Hi. lia.
      * split; [intros _|reflexivity]. apply lookup_ge_None in Hi. lia.
    + intros si sj Hi Hj. unfold ByGroupName_Less_at. rewrite Hi, Hj. reflexivity.
    + intros s' Hs'.
      destruct (swap_spec s i j) as [_ Hswap].
      destruct (Hswap s' Hs') as (_ & _ & Hi & Hj & _).
      unfold ByGroupName_Less_at. rewrite Hi, Hj. reflexivity.
Qed.

Section RunResets.

Context {World : Type}.
Variable methods : Generator -> GeneratorImpl World.
Variable Join : string -> string -> string.

(** The [generatorBase] embedded in the object behind the generator [x]. *)
Variable cell : World -> generatorBase.
Variable x : Generator.

Lemma replay_keeps_err (cs : list Call) :
  (forall y p w, err (cell (VisitDir (methods y) p w).2) = err (cell w)) ->
  (forall y w, err (cell (StopWalk (methods y) w)) = err (cell w)) ->
  Forall (fun c => match c with CallStartWalk _ _ => False | _ => True end) cs ->
  forall w, err (cell (replay methods cs w)) = err (cell w).
Proof.
  intros Hvisit Hstop. induction 1 as [|c cs Hc _ IH]; intros w; [reflexivity|].
  destruct c as [y p|y p f e|y]; [contradiction| |]; simpl; rewrite IH.
  - apply Hvisit.
  - apply Hstop.
Qed.

Lemma replay_starts_reset (basePath : string) (generators : list Generator) :
  (forall p w, cell (StartWalk (methods x) p w) =
               generatorBase_StartWalk (cell w) p) ->
  (forall y p w, y <> x ->
     err (cell (StartWalk (methods y) p w)) = err (cell w)) ->
  x ∈ generators ->
  forall w,
    err (cell (replay methods
                 ((fun y => CallStartWalk y basePath) <$> generators) w)) = None.
Proof.
  intros Hx Hother.
  assert (Hkeep : forall l w, err (cell w) = None ->
            err (cell (replay methods
                         ((fun y => CallStartWalk y basePath) <$> l) w)) = None).
  { induction l as [|y l IH]; intros w Hw; [exact Hw|]. simpl. apply IH.
    destruct (decide (y = x)) as [->|Hne].
    - rewrite Hx. reflexivity.
    - rewrite Hother by exact Hne. exact Hw. }
  induction generators as [|y l IH]; intros Hin w; [inversion Hin|].
  simpl. destruct (decide (y = x)) as [->|Hne].
  - apply Hkeep. rewrite Hx. reflexivity.
  - apply IH. apply elem_of_cons in Hin as [->|Hin]; [contradiction|exact Hin].
Qed.

(** X19.  A recorded error does not outlive the start of a run.  Let the
    object behind a configured generator embed a [generatorBase], with the
    [StartWalk] and the [Err] of [generatorBase], and let no other call of
    the run write the error of that [generatorBase].  Then after a run
    that reaches the walk the generator has no recorded error, whatever
    error it held before. *)
Theorem run_resets_recorded_error (g : GeneratorCollection) (fs : FsDir)
    (dir : option directory) (w : World) :
  (forall p w, cell (StartWalk (methods x) p w) =
               generatorBase_StartWalk (cell w) p) ->
  (forall w, Err (methods x) w = generatorBase_Err (cell w)) ->
  (forall y p w, y <> x ->
     err (cell (StartWalk (methods y) p w)) = err (cell w)) ->
  (forall y p w, err (cell (VisitDir (methods y) p w).2) = err (cell w)) ->
  (forall y w, err (cell (StopWalk (methods y) w)) = err (cell w)) ->
  x ∈ Generators g ->
  NewDirectory Join fs (RootPath g) None = (dir, None) ->
  Err (methods x)
    (store (GeneratorCollection_Generate methods Join g (StatDir fs) w)) = None.
Proof.
  intros Hx Herr Hother Hvisit Hstop Hin Hdir.
  rewrite Herr. unfold generatorBase_Err.
  rewrite (Generate_walk_shape methods Join g fs dir w Hdir). cbv zeta.
  unfold store at 1. simpl.
  set (started := (fun y => CallStartWalk y (RootPath g)) <$> Generators g).
  destruct (directory_Generate_ok methods dir (Generators g)
              (replay methods started w)) as (Hvis & _ & Hw).
  rewrite Hw.
  rewrite (replay_keeps_err (CallStopWalk <$> Generators g) Hvisit Hstop).
  - rewrite (replay_keeps_err _ Hvisit Hstop).
    + apply replay_starts_reset; assumption.
    + eapply Forall_impl; [exact Hvis|]. simpl.
      intros [| |] [Hv _]; try exact I. discriminate.
  - apply Forall_fmap, Forall_true. intros y. exact I.
Qed.

End RunResets.

(* ===================================================================== *)
(** * The further properties on the examples *)

Section MoreExamples.

Import Example.

(** The listing of [R/X] fails: the error comes back from [R] under two
    wrappers, with no node. *)
Lemma NewDirectory_error_is_from_tree_witness :
  NewDirectory Join
    (MkFsDir IgnoreNotExist None
       [("X", Some (MkFsDir IgnoreNotExist (Some (errors_New "denied")) []))])
    "R" None = (None, Some (wrapped 2 (errors_New "denied"))) /\
  Cause (wrapped 2 (errors_New "denied")) = errors_New "denied".
Proof.
  split; [reflexivity|].
  destruct (NewDirectory_error_is_from_tree Join
              (MkFsDir IgnoreNotExist None
                 [("X", Some (MkFsDir IgnoreNotExist
                                (Some (errors_New "denied")) []))])
              "R" None None (wrapped 2 (errors_New "denied")) eq_refl)
    as (_ & _ & cause & k & Hin & _ & Hcause).
  rewrite Hcause. simpl in Hin. apply list_elem_of_singleton in Hin.
  rewrite Hin. reflexivity.
Defined.

(** The tree [fs] of the example holds no error: a node is built for it. *)
Lemma NewDirectory_succeeds_on_sound_tree_witness :
  fs_errors fs = [] /\ (NewDirectory Join fs "R" None).2 = None.
Proof.
  split; [reflexivity|].
  apply (NewDirectory_succeeds_on_sound_tree Join fs "R" None eq_refl).
Defined.

(** The node built for [R] has three slots, for [X], [B] and [Z]. *)
Lemma NewDirectory_children_slots_witness :
  (exists d, NewDirectory Join fs "R" None = (Some d, None) /\
             length (children d) = 3).
Proof.
  destruct (NewDirectory Join fs "R" None) as [[d|] e] eqn:Hnew;
    [|discriminate Hnew].
  assert (He : e = None) by (injection Hnew as _ <-; reflexivity).
  subst e. exists d. split; [reflexivity|].
  destruct (NewDirectory_children_slots Join fs "R" None d Hnew)
    as (_ & _ & _ & Hlen & _).
  exact Hlen.
Defined.

(** The ignore file of [R] compiles to [rules]: the node of [R] resolves
    to them. *)
Lemma ignore_file_overrides_or_inherits_witness :
  (exists d, NewDirectory Join fs "R" None = (Some d, None) /\
             Ignores d = Some rules).
Proof.
  destruct (NewDirectory Join fs "R" None) as [[d|] e] eqn:Hnew;
    [|discriminate Hnew].
  assert (He : e = None) by (injection Hnew as _ <-; reflexivity).
  subst e. exists d. split; [reflexivity|].
  apply (ignore_file_overrides_or_inherits Join fs "R" None d Hnew).
Defined.


(** Two quiet generators are each called at each of the three nodes. *)
Lemma walk_unclaimed_visits_all_witness :
  calls (directory_Generate Plain.methods (Some dirX) [0; 1] Plain.stale) =
    [CallVisitDir 0 "R/X" false None; CallVisitDir 1 "R/X" false None;
     CallVisitDir 0 "R/X/Y" false None; CallVisitDir 1 "R/X/Y" false None].
Proof.
  apply (walk_unclaimed_visits_all Plain.methods (Some dirX) [0; 1] Plain.stale).
  intros [|y] _ p w; reflexivity.
Defined.

(** The run of the example starts and stops both generators around the
    visits. *)
Lemma Generate_brackets_walk_witness :
  exists visited,
    calls (GeneratorCollection_Generate methods Join (collection [0; 1] [])
             (StatDir fs) w0) =
      [CallStartWalk 0 "R"; CallStartWalk 1 "R"] ++ visited ++
      [CallStopWalk 0; CallStopWalk 1].
Proof.
  destruct (NewDirectory Join fs "R" None) as [dir e] eqn:Hnew.
  assert (He : e = None) by (injection Hnew as _ <-; reflexivity).
  subst e.
  destruct (Generate_brackets_walk methods Join (collection [0; 1] []) fs dir
              w0 Hnew) as (visited & Hcalls & _).
  exists visited. exact Hcalls.
Defined.

(** The targets [api; db; api] select what the targets [db; api] select. *)
Lemma targets_count_as_a_set_witness :
  Services (sorter := merge_sorter) methods
    (collection [0; 1] ["api"; "db"; "api"]) w0 =
  Services (sorter := merge_sorter) methods
    (collection [0; 1] ["db"; "api"]) w0.
Proof.
  apply (targets_count_as_a_set (sorter := merge_sorter) methods [0; 1] "R"
           ["api"; "db"; "api"] ["db"; "api"] w0);
    [discriminate|discriminate|].
  intros t. rewrite !elem_of_cons, !elem_of_nil. tauto.
Defined.

(** Generator 0 holds a recorded error in [w0]: listing it changes
    nothing. *)
Lemma recorded_error_excludes_generator_witness :
  Err (methods 0) w0 <> None /\
  Imports methods (collection [1; 0] []) w0 =
    Imports methods (collection [1] []) w0.
Proof.
  split; [discriminate|].
  apply (recorded_error_excludes_generator (sorter := merge_sorter) methods
           [1] [] 0 "R" [] w0).
  discriminate.
Defined.

(** The stale error of the plain generator is gone after a run. *)
Lemma run_resets_recorded_error_witness :
  Err (Plain.methods 0) Plain.stale = Some (errors_New "stale") /\
  Err (Plain.methods 0)
    (store (GeneratorCollection_Generate Plain.methods Join
              (collection [1; 0] []) (StatDir fs) Plain.stale)) = None.
Proof.
  split; [reflexivity|].
  destruct (NewDirectory Join fs "R" None) as [dir e] eqn:Hnew.
  assert (He : e = None) by (injection Hnew as _ <-; reflexivity).
  subst e.
  apply (run_resets_recorded_error Plain.methods Join (fun b => b) 0
           (collection [1; 0] []) fs dir Plain.stale).
  - reflexivity.
  - reflexivity.
  - intros [|y] p w Hy; [contradiction|reflexivity].
  - intros [|y] p w; reflexivity.
  - intros [|y] w; reflexivity.
  - apply list_elem_of_further, list_elem_of_here.
  - exact Hnew.
Defined.

End MoreExamples.
